(** * Keyword matching engine (keyword_processor.py): model and properties

    Strings are Python [str] values: sequences of Unicode code points,
    modelled as [list Z].  The tables of the Unicode character database
    that back [str.lower], [str.split], [str.strip], [str.isdigit], [int]
    and the regular-expression classes [\w] and [\s] are a parameter
    ([UCD]); general theorems hold for every database, evaluations use the
    fragment [ucd_basic]. *)

From Stdlib Require Import ZArith List Ascii String QArith Qabs Qround Qpower Lia Lqa.
From Stdlib Require Import SpecFloat.
From stdpp Require Import gmap list sorting.

Local Open Scope Z_scope.

Abbreviation ustring := (list Z).

(** ASCII literals as code point sequences. *)
Definition u (s : string) : ustring :=
  List.map (fun a => Z.of_N (N_of_ascii a)) (list_ascii_of_string s).

(** ** The character database *)

Record UCD := {
  isalnum : Z -> bool;          (* str.isalnum on one code point *)
  isspace : Z -> bool;          (* Py_UNICODE_ISSPACE: \s, split(), strip() *)
  isdigit : Z -> bool;          (* str.isdigit on one code point *)
  decimal : Z -> option Z;      (* value of a decimal digit, as int() reads it *)
  lower_full : Z -> ustring;    (* full lowercase mapping of one code point *)
  cased : Z -> bool;
  case_ignorable : Z -> bool
}.

Definition in_range (lo hi c : Z) : bool := (lo <=? c) && (c <=? hi).

(** ** strQ2B *)

Definition Q2B_char (inside_code : Z) : Z :=
  if inside_code =? 12288 then 32
  else if in_range 65281 65374 inside_code then inside_code - 65248
  else inside_code.

Definition strQ2B (s : ustring) : ustring := List.map Q2B_char s.

(** ** Library string operations *)

Section Strings.
Context (U : UCD).

(** [str.split()] with no argument: maximal runs of non-space code points. *)
Fixpoint split (s : ustring) : list ustring :=
  match s with
  | [] => []
  | c :: rest =>
      if isspace U c then split rest
      else match rest with
           | [] => [[c]]
           | d :: _ =>
               if isspace U d then [c] :: split rest
               else match split rest with
                    | w :: ws => (c :: w) :: ws
                    | [] => [[c]]
                    end
           end
  end.

(** [sep.join(l)]. *)
Fixpoint join (sep : ustring) (l : list ustring) : ustring :=
  match l with
  | [] => []
  | [w] => w
  | w :: rest => w ++ sep ++ join sep rest
  end.

Fixpoint lstrip (s : ustring) : ustring :=
  match s with
  | c :: rest => if isspace U c then lstrip rest else s
  | [] => []
  end.

(** [str.strip()]. *)
Definition strip (s : ustring) : ustring := rev (lstrip (rev (lstrip s))).

(** The first code point that is not case-ignorable, if any. *)
Fixpoint skip_ignorable (s : ustring) : option Z :=
  match s with
  | [] => None
  | c :: rest => if case_ignorable U c then skip_ignorable rest else Some c
  end.

(** CPython's [handle_capital_sigma]: U+03A3 lowers to the final form
    U+03C2 after a cased letter that no cased letter follows. *)
Definition handle_capital_sigma (before_rev after : ustring) : Z :=
  let final_sigma :=
    match skip_ignorable before_rev with
    | Some c => cased U c
    | None => false
    end in
  let final_sigma :=
    if final_sigma then
      match skip_ignorable after with
      | Some c => negb (cased U c)
      | None => true
      end
    else false in
  if final_sigma then 0x3C2 else 0x3C3.

Fixpoint lower_from (before_rev s : ustring) : ustring :=
  match s with
  | [] => []
  | c :: rest =>
      (if c =? 0x3A3 then [handle_capital_sigma before_rev rest]
       else lower_full U c) ++ lower_from (c :: before_rev) rest
  end.

(** [str.lower()]. *)
Definition lower (s : ustring) : ustring := lower_from [] s.

Fixpoint startswith (s p : ustring) : bool :=
  match p, s with
  | [], _ => true
  | _ :: _, [] => false
  | x :: p', y :: s' => (x =? y) && startswith s' p'
  end.

(** [p in s] on strings. *)
Fixpoint contains (s p : ustring) : bool :=
  startswith s p ||
  match s with
  | [] => false
  | _ :: s' => contains s' p
  end.

(** [s.replace(old, new)] for a one-character [old]. *)
Definition replace_char (old : Z) (new : ustring) (s : ustring) : ustring :=
  List.concat (List.map (fun c => if c =? old then new else [c]) s).

(** [s.split(sep)] for a one-character separator. *)
Fixpoint split_on (sep : Z) (s : ustring) : list ustring :=
  match s with
  | [] => [[]]
  | c :: rest =>
      if c =? sep then [] :: split_on sep rest
      else match split_on sep rest with
           | w :: ws => (c :: w) :: ws
           | [] => [[c]]
           end
  end.
End Strings.

(** ** A fragment of the character database

    Exact on the ASCII code points, on the whitespace code points, and on
    the code points listed; every other code point is taken as a caseless
    symbol. *)

Definition basic_isspace (c : Z) : bool :=
  in_range 9 13 c || in_range 28 32 c || (c =? 0x85) || (c =? 0xA0) ||
  (c =? 0x1680) || in_range 0x2000 0x200A c || (c =? 0x2028) ||
  (c =? 0x2029) || (c =? 0x202F) || (c =? 0x205F) || (c =? 0x3000).

Definition basic_isdigit (c : Z) : bool :=
  in_range 48 57 c || (c =? 0xB2) || (c =? 0xB3) || (c =? 0xB9) ||
  in_range 0x660 0x669 c || in_range 0xFF10 0xFF19 c.

Definition basic_decimal (c : Z) : option Z :=
  if in_range 48 57 c then Some (c - 48)
  else if in_range 0x660 0x669 c then Some (c - 0x660)
  else if in_range 0xFF10 0xFF19 c then Some (c - 0xFF10)
  else None.

Definition basic_upper (c : Z) : bool :=
  in_range 65 90 c || in_range 0xFF21 0xFF3A c.

Definition basic_cased (c : Z) : bool :=
  basic_upper c || in_range 97 122 c || in_range 0xFF41 0xFF5A c ||
  (c =? 0x130) || (c =? 0x3A3) || (c =? 0x3C2) || (c =? 0x3C3).

Definition basic_isalnum (c : Z) : bool :=
  basic_isdigit c || basic_cased c || in_range 0x4E00 0x9FFF c.

Definition basic_lower_full (c : Z) : ustring :=
  if basic_upper c then [c + 32]
  else if c =? 0x130 then [0x69; 0x307]
  else if c =? 0x3A3 then [0x3C3]
  else [c].

Definition basic_case_ignorable (c : Z) : bool :=
  (c =? 0x27) || (c =? 0x2E) || (c =? 0x3A) || (c =? 0x5E) || (c =? 0x60) ||
  (c =? 0xAD) || (c =? 0x307).

Definition ucd_basic : UCD := {|
  isalnum := basic_isalnum;
  isspace := basic_isspace;
  isdigit := basic_isdigit;
  decimal := basic_decimal;
  lower_full := basic_lower_full;
  cased := basic_cased;
  case_ignorable := basic_case_ignorable
|}.

(** ** Stop words *)

Definition DEFAULT_STOPWORDS : gset ustring :=
  list_to_set (List.map u [
    "the"; "a"; "an"; "and"; "or"; "but"; "in"; "on"; "at"; "to"; "for"; "of"; "with"; "by";
    "from"; "up"; "about"; "into"; "through"; "during"; "before"; "after"; "above"; "below";
    "between"; "among"; "is"; "are"; "was"; "were"; "be"; "been"; "being"; "have"; "has"; "had";
    "do"; "does"; "did"; "will"; "would"; "could"; "should"; "may"; "might"; "must"; "can";
    "this"; "that"; "these"; "those"; "i"; "you"; "he"; "she"; "it"; "we"; "they"; "me"; "him";
    "her"; "us"; "them"; "my"; "your"; "his"; "her"; "its"; "our"; "their"; "mine"; "yours";
    "hers"; "ours"; "theirs"; "myself"; "yourself"; "himself"; "herself"; "itself"; "ourselves";
    "yourselves"; "themselves"; "what"; "which"; "who"; "whom"; "whose"; "where"; "when"; "why";
    "how"; "all"; "any"; "both"; "each"; "few"; "more"; "most"; "other"; "some"; "such"; "no";
    "nor"; "not"; "only"; "own"; "same"; "so"; "than"; "too"; "very"; "s"; "t"; "just"; "now"
  ]%string).

(** The options record of the web form: both fields are strings when present. *)
Record options_t := {
  opt_rank_limit : option ustring;
  opt_custom_stopwords : option ustring
}.

Inductive exn :=
| ValueError        (* int() on a string it cannot read *)
| LoadError.        (* the exception _load_keyword_database re-raises *)

Inductive result (A : Type) :=
| Ok (a : A)
| Raise (e : exn).
Arguments Ok {A} a.
Arguments Raise {A} e.

#[global] Instance result_ret : MRet result := fun A a => Ok a.
#[global] Instance result_bind : MBind result := fun A B k r =>
  match r with
  | Ok a => k a
  | Raise e => Raise e
  end.

Definition entry : Type := ustring * nat.
Definition match_t : Type := ustring * nat * Z.

Section Matcher.
Context (U : UCD).

Definition _get_stopwords (options : options_t) : gset ustring :=
  match opt_custom_stopwords options with
  | Some ((_ :: _) as custom_stopwords) =>
      let custom_words :=
        List.map (fun w => lower U (strip U w))
          (List.filter (fun w => match strip U w with [] => false | _ => true end)
             (split_on 44 custom_stopwords)) in
      DEFAULT_STOPWORDS ∪ list_to_set custom_words
  | _ => DEFAULT_STOPWORDS
  end.

(** ** _build_index *)

Definition sort_key (x : entry) : nat * nat :=
  (length (split U (fst x)), length (fst x)).

(** Order on the sort keys: tuples compare lexicographically. *)
Definition key_le (a b : nat * nat) : bool :=
  (fst a <? fst b)%nat || ((fst a =? fst b)%nat && (snd a <=? snd b)%nat).

(** [list.sort(key=..., reverse=True)]: descending, and stable (elements
    with equal keys keep their original order). *)
Fixpoint insert_desc (x : entry) (l : list entry) : list entry :=
  match l with
  | [] => [x]
  | y :: l' =>
      if key_le (sort_key y) (sort_key x) then x :: l
      else y :: insert_desc x l'
  end.

Definition sort_desc (l : list entry) : list entry := foldr insert_desc [] l.

Definition enumerate {A} (l : list A) : list (nat * A) :=
  List.combine (seq 0 (length l)) l.

Definition index_add (index : gmap ustring (list entry)) (iw : nat * ustring)
  : gmap ustring (list entry) :=
  let '(i, word) := iw in
  let w := strQ2B (lower U (strip U word)) in
  match w with
  | [] => index
  | _ =>
      let first := match split U w with f :: _ => f | [] => w end in
      <[first := default [] (index !! first) ++ [(w, i)]]> index
  end.

Definition _build_index (word_list : list ustring) : gmap ustring (list entry) :=
  sort_desc <$> fold_left index_add (enumerate word_list) ∅.

(** ** clean_phrase *)

(** The characters the pattern [[^\w\s一-鿿]] does not match. *)
Definition re_keep (c : Z) : bool :=
  isalnum U c || (c =? 95) || isspace U c || in_range 0x4e00 0x9fff c.

Definition re_sub_space (s : ustring) : ustring :=
  List.map (fun c => if re_keep c then c else 32) s.

Definition keep_word (stopwords : gset ustring) (w : ustring) : bool :=
  negb (bool_decide (w ∈ stopwords)) && (1 <? length w)%nat.

Definition clean_phrase (stopwords : gset ustring) (phrase : ustring) : ustring :=
  match phrase with
  | [] => []
  | _ =>
      let phrase := strQ2B phrase in
      let phrase := re_sub_space phrase in
      let words := split U (lower U phrase) in
      let filtered_words := List.filter (keep_word stopwords) words in
      join [32] filtered_words
  end.

(** ** match_from_index *)

(** Does the candidate match at position [i]?  The two branches of the
    source: a one-token keyword is compared with the word, any other
    with the joined span of as many tokens. *)
Definition fits (words : list ustring) (i : nat) (word : ustring) (keyword : ustring) : bool :=
  let keyword_words := split U keyword in
  if (length keyword_words =? 1)%nat then bool_decide (word = keyword)
  else
    (i + length keyword_words <=? length words)%nat &&
    bool_decide (join [32] (take (length keyword_words) (drop i words)) = keyword).

(** The positions a match of [keyword] at [i] adds to the used set. *)
Definition claimed (i : nat) (keyword : ustring) : list nat :=
  let keyword_words := split U keyword in
  if (length keyword_words =? 1)%nat then [i]
  else seq i (length keyword_words).

Definition match_of (i : nat) (keyword : ustring) : match_t :=
  (keyword, i, Z.of_nat i + Z.of_nat (length (split U keyword)) - 1).

(** The inner loop over [index[word]]: the first candidate that matches,
    if any; the loop breaks there. *)
Fixpoint try_candidates (words : list ustring) (i : nat) (word : ustring)
    (cands : list entry) : option ustring :=
  match cands with
  | [] => None
  | (keyword, _) :: rest =>
      if fits words i word keyword then Some keyword
      else try_candidates words i word rest
  end.

Definition match_step (index : gmap ustring (list entry)) (words : list ustring)
    (st : list match_t * gset nat) (iw : nat * ustring) : list match_t * gset nat :=
  let '(matches, used_positions) := st in
  let '(i, word) := iw in
  if bool_decide (i ∈ used_positions) then st
  else match index !! word with
       | Some cands =>
           match try_candidates words i word cands with
           | Some keyword =>
               (matches ++ [match_of i keyword],
                used_positions ∪ list_to_set (claimed i keyword))
           | None => st
           end
       | None => st
       end.

Definition match_from_index (phrase : ustring) (index : gmap ustring (list entry))
    (used_positions : gset nat) : list match_t * gset nat :=
  let words := split U phrase in
  fold_left (match_step index words) (enumerate words) ([], used_positions).
End Matcher.

(** ** The reference table and the matcher object *)

(** A data frame as the code reads it: column labels (already [str(c)])
    and, per column, the cells as [astype(str)] renders them. *)
Definition frame : Type := list (ustring * list ustring).

Record matcher := {
  stopwords : gset ustring;
  rank_limit : option Z;
  keyword_list : list ustring;
  type_list : list ustring;
  gender_list : list ustring;
  size_list : list ustring;
  age_list : list ustring;
  brand_list : list ustring;
  keyword_index : gmap ustring (list entry);
  type_index : gmap ustring (list entry);
  gender_index : gmap ustring (list entry);
  size_index : gmap ustring (list entry);
  age_index : gmap ustring (list entry);
  brand_index : gmap ustring (list entry)
}.

(** The per-field matches of one phrase, with their spans, and the final
    used-position set. *)
Record field_matches := {
  m_keywords : list match_t;
  m_brands : list match_t;
  m_types : list match_t;
  m_sizes : list match_t;
  m_ages : list match_t;
  m_genders : list match_t;
  m_used : gset nat
}.

Record extraction := {
  keywords : list ustring;
  brands : list ustring;
  types : list ustring;
  sizes : list ustring;
  ages : list ustring;
  genders : list ustring;
  uncovered_words : list ustring
}.

Definition empty_extraction : extraction :=
  {| keywords := []; brands := []; types := []; sizes := [];
     ages := []; genders := []; uncovered_words := [] |}.

Section Engine.
Context (U : UCD).

(** [str.isdigit()]: non-empty and every code point a digit. *)
Definition str_isdigit (s : ustring) : bool :=
  match s with
  | [] => false
  | _ => forallb (isdigit U) s
  end.

(** The base-10 value of a string of decimal digits; [ValueError] at a
    code point that is not a decimal digit. *)
Fixpoint int_digits (acc : Z) (s : ustring) : result Z :=
  match s with
  | [] => Ok acc
  | c :: rest =>
      match decimal U c with
      | Some d => int_digits (10 * acc + d) rest
      | None => Raise ValueError
      end
  end.

(** [sys.int_max_str_digits], at its default. *)
Definition int_max_str_digits : Z := 4300.

(** [int(s)] on a string that passed [isdigit]: [ValueError] when the
    string has more digits than the limit (leading zeros count), or when
    a code point is not a decimal digit; the base-10 value otherwise. *)
Definition py_int (s : ustring) : result Z :=
  if int_max_str_digits <? Z.of_nat (length s) then Raise ValueError
  else int_digits 0 s.

Definition _parse_rank_limit (options : options_t) : result (option Z) :=
  let rank_limit_str := default [] (opt_rank_limit options) in
  match rank_limit_str with
  | [] => Ok None
  | _ =>
      if str_isdigit rank_limit_str then n ← py_int rank_limit_str; Ok (Some n)
      else Ok None
  end.

(** *** Header mapping *)

Definition normalize_header (c : ustring) : ustring :=
  replace_char 0xFF09 [41]
    (replace_char 0xFF08 [40]
       (replace_char 32 [] (strip U (strQ2B c)))).

(** The branch of the [if]/[elif] chain a header takes. *)
Definition header_role (c : ustring) : option string :=
  if contains (lower U c) (u "keyword") || contains c [0x5173; 0x952e; 0x8bcd]
  then Some "Keyword"%string
  else if contains (lower U c) (u "type") || contains c [0x7c7b; 0x578b]
  then Some "Type"%string
  else if contains (lower U c) (u "gender") || contains c [0x6027; 0x522b]
  then Some "Gender"%string
  else if contains (lower U c) (u "size") || contains c [0x5c3a; 0x7801]
  then Some "Size"%string
  else if contains (lower U c) (u "age") || contains c [0x5e74; 0x9f84]
          || contains (lower U (replace_char 32 [] c)) (u "specialage")
  then Some "Special Age"%string
  else if contains (lower U c) (u "brand") || contains c [0x54c1; 0x724c]
  then Some "Brand"%string
  else None.

Definition col_map_step (col_map : gmap string ustring) (c : ustring)
  : gmap string ustring :=
  match header_role c with
  | Some role => <[role := c]> col_map
  | None => col_map
  end.

Definition build_col_map (columns : list ustring) : gmap string ustring :=
  fold_left col_map_step columns ∅.

(** [df[label].astype(str).fillna('').tolist()]: the cells of the one
    column with that label.  A label that is missing raises [KeyError];
    a label carried by several columns selects a frame, which has no
    [tolist]. *)
Definition column_tolist (df : frame) (label : ustring) : result (list ustring) :=
  match List.filter (fun col => bool_decide (fst col = label)) df with
  | [col] => Ok (snd col)
  | _ => Raise LoadError
  end.

Definition field_list (df : frame) (col_map : gmap string ustring)
    (role : string) : result (list ustring) :=
  match col_map !! role with
  | Some label => column_tolist df label
  | None => Ok []
  end.

(** State of the object after [_load_keyword_database]; every exception
    inside is re-raised as the load error. *)
Definition _load_keyword_database (stopwords : gset ustring)
    (rank_limit : option Z) (keyword_file : frame) : result matcher :=
  let columns := List.map (fun col => normalize_header (fst col)) keyword_file in
  let keyword_df : frame := List.combine columns (List.map snd keyword_file) in
  let col_map := build_col_map columns in
  match columns with
  | [] => Raise LoadError                       (* columns[0] *)
  | first_column :: _ =>
      keyword_list ← column_tolist keyword_df (default first_column (col_map !! "Keyword"%string));
      type_list ← field_list keyword_df col_map "Type";
      gender_list ← field_list keyword_df col_map "Gender";
      size_list ← field_list keyword_df col_map "Size";
      age_list ← field_list keyword_df col_map "Special Age";
      brand_list ← field_list keyword_df col_map "Brand";
      Ok {| stopwords := stopwords;
            rank_limit := rank_limit;
            keyword_list := keyword_list;
            type_list := type_list;
            gender_list := gender_list;
            size_list := size_list;
            age_list := age_list;
            brand_list := brand_list;
            keyword_index := _build_index U keyword_list;
            type_index := _build_index U type_list;
            gender_index := _build_index U gender_list;
            size_index := _build_index U size_list;
            age_index := _build_index U age_list;
            brand_index := _build_index U brand_list |}
  end.

(** [WebKeywordMatcher(keyword_file, options)]. *)
Definition WebKeywordMatcher (keyword_file : frame) (options : options_t)
  : result matcher :=
  let stopwords := _get_stopwords U options in
  rank_limit ← _parse_rank_limit options;
  _load_keyword_database stopwords rank_limit keyword_file.

(** *** extract_all *)

(** The six passes, in the order of the source, over one used set. *)
Definition match_fields (self : matcher) (cleaned_phrase : ustring) : field_matches :=
  let used_positions : gset nat := ∅ in
  let '(keywords, used_positions) :=
    match_from_index U cleaned_phrase (keyword_index self) used_positions in
  let '(brands, used_positions) :=
    match_from_index U cleaned_phrase (brand_index self) used_positions in
  let '(types, used_positions) :=
    match_from_index U cleaned_phrase (type_index self) used_positions in
  let '(sizes, used_positions) :=
    match_from_index U cleaned_phrase (size_index self) used_positions in
  let '(ages, used_positions) :=
    match_from_index U cleaned_phrase (age_index self) used_positions in
  let '(genders, used_positions) :=
    match_from_index U cleaned_phrase (gender_index self) used_positions in
  {| m_keywords := keywords; m_brands := brands; m_types := types;
     m_sizes := sizes; m_ages := ages; m_genders := genders;
     m_used := used_positions |}.

Definition match_text (k : match_t) : ustring := fst (fst k).

Definition extract_all (self : matcher) (phrase : ustring) : extraction :=
  let cleaned_phrase := clean_phrase U (stopwords self) phrase in
  match cleaned_phrase with
  | [] => empty_extraction
  | _ =>
      let fm := match_fields self cleaned_phrase in
      let words := split U cleaned_phrase in
      {| keywords := List.map match_text (m_keywords fm);
         brands := List.map match_text (m_brands fm);
         types := List.map match_text (m_types fm);
         sizes := List.map match_text (m_sizes fm);
         ages := List.map match_text (m_ages fm);
         genders := List.map match_text (m_genders fm);
         uncovered_words :=
           List.map snd
             (List.filter (fun iw => negb (bool_decide (fst iw ∈ m_used fm)))
                (enumerate words)) |}
  end.
End Engine.

(** ** Python floats

    A finite binary64 value is modelled by the rational it denotes.
    [round53] rounds a rational to the nearest value with a 53-bit
    significand, ties to even; the exponent range is not bounded, which
    is exact for the magnitudes met here (quotients of row counts and of
    row labels, and their products with 100: none underflows), and a
    result beyond the largest float is recognized on the rounded value
    ([overflows]). *)

Module Float.
Local Open Scope Q_scope.

(** Round half to even, to an integer. *)
Definition rne (x : Q) : Z :=
  let f := Qfloor x in
  match Qcompare (x - inject_Z f) (1 # 2) with
  | Lt => f
  | Gt => (f + 1)%Z
  | Eq => if Z.even f then f else (f + 1)%Z
  end.

(** The binary exponent of a positive rational: [2^e <= x < 2^(e+1)]. *)
Definition qlog2 (x : Q) : Z :=
  let e0 := (Z.log2 (Qnum x) - Z.log2 (Zpos (Qden x)))%Z in
  if Qle_bool (2 ^ e0) x then e0 else (e0 - 1)%Z.

Definition round53_pos (x : Q) : Q :=
  let e := (qlog2 x - 52)%Z in
  inject_Z (rne (x / 2 ^ e)) * 2 ^ e.

Definition round53 (x : Q) : Q :=
  Qred match Qcompare x 0 with
       | Eq => 0
       | Gt => round53_pos x
       | Lt => - round53_pos (- x)
       end.

(** [a / b] on integers (true division, correctly rounded), [b <> 0]. *)
Definition truediv (a b : Z) : Q := round53 (inject_Z a / inject_Z b).

(** [x * y] on floats. *)
Definition mul (x y : Q) : Q := round53 (x * y).

(** [x + y] and [x / y] on floats. *)
Definition add (x y : Q) : Q := round53 (x + y).
Definition div (x y : Q) : Q := round53 (x / y).

(** Is a rounded result beyond the largest finite float?  The operation
    then gives an infinity. *)
Definition overflows (x : Q) : bool := Qle_bool (2 ^ 1024) (Qabs x).

(** [int(x)]: truncation toward zero. *)
Definition to_int (x : Q) : Z := Z.quot (Qnum x) (Zpos (Qden x)).

(** [round(x, 2)]: the decimal with two places nearest to the exact value
    of [x], ties to even, converted back to the nearest float. *)
Definition round2 (x : Q) : Q := round53 (inject_Z (rne (x * 100)) / 100).
End Float.

(** ** process_file *)

(** One row of the result sheet; the texts are the [', '.join] of the
    extraction's sequences.  (The copied input columns are not modelled.) *)
Record result_row := {
  row_phrase : ustring;      (* 原始短语 *)
  row_keywords : ustring;    (* 关键词 *)
  row_brands : ustring;      (* 品牌 *)
  row_types : ustring;       (* 类型 *)
  row_sizes : ustring;       (* 尺码 *)
  row_ages : ustring;        (* 年龄 *)
  row_genders : ustring;     (* 性别 *)
  row_uncovered : ustring    (* 未覆盖单词 *)
}.

(** What the loop does, in order: a row appended to [results], a call of
    the progress callback. *)
Inductive event :=
| Appended (row : result_row)
| Progress (progress : Z).

Record statistics := {
  total_phrases : nat;
  keyword_coverage : Q;
  brand_coverage : Q;
  type_coverage : Q;
  top_uncovered_words : list (ustring * nat)
}.

(** What a successful run answers ([total_processed], [statistics]),
    with the events of its loop. *)
Record outcome := {
  log : list event;
  total_processed : nat;
  stats : statistics
}.

(** The label [df.iterrows()] yields with a row.  A reader gives the rows
    their positions as labels ([RangeIndex]) unless the file makes a
    column the index (a CSV whose data lines have one field more than
    the header line): the labels are then the cells of that column. *)
Inductive row_label :=
| IntLabel (z : Z)       (* an integer of a 64-bit index; a bool counts as 0 or 1 *)
| FloatLabel (x : Q)     (* a finite float *)
| OtherLabel.            (* text, a tuple, a timestamp, NaN, an infinity *)

(** The row labels of a frame, by row position. *)
Definition row_index : Type := nat -> row_label.

Definition RangeIndex : row_index := fun i => IntLabel (Z.of_nat i).

(** Why [process_file] answers with [success: False]. *)
Inductive process_error :=
| UnsupportedFormat     (* the ValueError raised for the file name *)
| NoColumns             (* IndexError of [df.columns[0]] *)
| ProgressError.        (* TypeError, ValueError or OverflowError of
                           [int((idx + 1) / total_rows * 100)] *)

(** The answer of [process_file]; a failed run keeps the events that
    came before the exception. *)
Inductive run :=
| Success (o : outcome)
| Failed (error : process_error) (log : list event).

Section Batch.
Context (U : UCD).

Definition comma_space : ustring := [44; 32].

(** [s.split(sep)] for a separator string: cut at each occurrence, from
    the left. *)
Fixpoint split_sep_aux (sep : ustring) (skip : nat) (cur : ustring)
    (s : ustring) : list ustring :=
  match s with
  | [] => [rev cur]
  | c :: rest =>
      match skip with
      | S k => split_sep_aux sep k cur rest
      | O =>
          if startswith s sep
          then rev cur :: split_sep_aux sep (length sep - 1) [] rest
          else split_sep_aux sep 0 (c :: cur) rest
      end
  end.

Definition split_sep (sep s : ustring) : list ustring := split_sep_aux sep 0 [] s.

Definition result_row_of (self : matcher) (cell : option ustring) : result_row :=
  let phrase := default [] cell in
  let extracted := extract_all U self phrase in
  {| row_phrase := phrase;
     row_keywords := join comma_space (keywords extracted);
     row_brands := join comma_space (brands extracted);
     row_types := join comma_space (types extracted);
     row_sizes := join comma_space (sizes extracted);
     row_ages := join comma_space (ages extracted);
     row_genders := join comma_space (genders extracted);
     row_uncovered := join comma_space (uncovered_words extracted) |}.

(** [int((idx + 1) / total_rows * 100)] for the label [idx] of a
    [RangeIndex]. *)
Definition progress_value (idx total_rows : nat) : Z :=
  Float.to_int
    (Float.mul (Float.truediv (Z.of_nat idx + 1) (Z.of_nat total_rows)) 100).

(** [int((idx + 1) / total_rows * 100)] for the label [idx] of a row:
    the value, or nothing when the expression raises (no number to add 1
    to, or a product beyond the floats, which [int] refuses). *)
Definition progress_of (idx : row_label) (total_rows : nat) : option Z :=
  match idx with
  | IntLabel z =>
      Some (Float.to_int (Float.mul (Float.truediv (z + 1) (Z.of_nat total_rows)) 100))
  | FloatLabel x =>
      let product :=
        Float.mul (Float.div (Float.add x 1) (inject_Z (Z.of_nat total_rows))) 100 in
      if Float.overflows product then None else Some (Float.to_int product)
  | OtherLabel => None
  end.

(** One iteration of the loop over [df.iterrows()]; the state is the
    events so far and the exception that has ended the loop, if any. *)
Definition row_step (self : matcher) (progress_callback : bool) (index : row_index)
    (total_rows : nat) (st : list event * option process_error)
    (ic : nat * option ustring) : list event * option process_error :=
  match st with
  | (_, Some _) => st
  | (log, None) =>
      let '(position, cell) := ic in
      let log := log ++ [Appended (result_row_of self cell)] in
      if progress_callback then
        match progress_of (index position) total_rows with
        | Some progress => (log ++ [Progress progress], None)
        | None => (log, Some ProgressError)
        end
      else (log, None)
  end.

Definition results_of (log : list event) : list result_row :=
  omap (fun e => match e with Appended r => Some r | Progress _ => None end) log.

Definition calls_of (log : list event) : list Z :=
  omap (fun e => match e with Progress v => Some v | Appended _ => None end) log.

Definition truthy (s : ustring) : bool :=
  match s with [] => false | _ => true end.

(** [sum(1 for r in results if r[field]) / total_phrases * 100]. *)
Definition coverage (field : result_row -> ustring) (results : list result_row) : Q :=
  let total_phrases := length results in
  if (0 <? total_phrases)%nat then
    Float.mul
      (Float.truediv
         (Z.of_nat (length (List.filter (fun r => truthy (field r)) results)))
         (Z.of_nat total_phrases))
      100
  else 0%Q.

(** [Counter]: the distinct items in first-met order, with their counts. *)
Fixpoint counter_add (w : ustring) (c : list (ustring * nat)) : list (ustring * nat) :=
  match c with
  | [] => [(w, 1%nat)]
  | (x, n) :: c' =>
      if bool_decide (x = w) then (x, S n) :: c' else (x, n) :: counter_add w c'
  end.

Definition Counter (l : list ustring) : list (ustring * nat) :=
  fold_left (fun c w => counter_add w c) l [].

(** [most_common(n)]: the first [n] of the items sorted by count,
    descending, items of equal count in their stored order. *)
Fixpoint insert_count (x : ustring * nat) (l : list (ustring * nat)) :=
  match l with
  | [] => [x]
  | y :: l' => if (snd y <=? snd x)%nat then x :: l else y :: insert_count x l'
  end.

Definition most_common (n : nat) (c : list (ustring * nat)) : list (ustring * nat) :=
  take n (foldr insert_count [] c).

Definition _generate_statistics (results : list result_row) : statistics :=
  let all_uncovered :=
    List.concat
      (List.map (fun r => if truthy (row_uncovered r)
                          then split_sep comma_space (row_uncovered r) else [])
         results) in
  {| total_phrases := length results;
     keyword_coverage := Float.round2 (coverage row_keywords results);
     brand_coverage := Float.round2 (coverage row_brands results);
     type_coverage := Float.round2 (coverage row_types results);
     top_uncovered_words := most_common 10 (Counter all_uncovered) |}.

(** [df.head(rank_limit)] when the limit is set and positive. *)
Definition apply_rank_limit (self : matcher) (df : list (option ustring))
  : list (option ustring) :=
  match rank_limit self with
  | Some n => if (n =? 0) then df else if 0 <? n then take (Z.to_nat n) df else df
  | None => df
  end.

(** The body of [process_file] from the rank limit on; [index] holds the
    row labels of the input and [df] its phrase column ([None] for a
    missing cell).  [df.head] keeps the labels of the rows it keeps. *)
Definition process_file (self : matcher) (index : row_index)
    (df : list (option ustring)) (progress_callback : bool) : run :=
  let df := apply_rank_limit self df in
  let total_rows := length df in
  match fold_left (row_step self progress_callback index total_rows)
          (enumerate df) ([], None) with
  | (log, None) =>
      Success {| log := log;
                 total_processed := total_rows;
                 stats := _generate_statistics (results_of log) |}
  | (log, Some error) => Failed error log
  end.
End Batch.

(** ** The head of process_file: input format and phrase column *)

(** The phrase table as a reader returns it: the columns in order, each
    with its label as text ([str(col)]) and its cells, [None] for a
    missing one.  The readers return distinct labels, so the column chosen
    is identified by its place. *)
Definition phrase_frame : Type := list (ustring * list (option ustring)).

Inductive input_format := Excel | Csv.

(** [s.endswith(suffix)]. *)
Definition endswith (s suffix : ustring) : bool := startswith (rev s) (rev suffix).

Definition input_format_of (input_file : ustring) : option input_format :=
  if endswith input_file (u ".xlsx") || endswith input_file (u ".xls") then Some Excel
  else if endswith input_file (u ".csv") then Some Csv
  else None.

(** The substrings that mark the phrase column. *)
Definition phrase_markers : list ustring :=
  [u "phrase"; [0x77ed; 0x8bed]; u "title"; [0x6807; 0x9898];
   u "keyword"; [0x5173; 0x952e; 0x8bcd]].

Section Input.
Context (U : UCD).

Definition is_phrase_label (col : ustring) : bool :=
  existsb (fun keyword => contains (lower U col) keyword) phrase_markers.

(** The loop over [df.columns] with its [break], and the fall-back to the
    first column. *)
Definition find_phrase_col (df : phrase_frame)
  : option (ustring * list (option ustring)) :=
  match List.find (fun col => is_phrase_label (fst col)) df with
  | Some col => Some col
  | None => head df
  end.

(** [process_file] from the file name on; [index] and [df] are the row
    labels and the columns the reader returned for the file. *)
Definition process_input (self : matcher) (input_file : ustring)
    (index : row_index) (df : phrase_frame) (progress_callback : bool) : run :=
  match input_format_of input_file with
  | None => Failed UnsupportedFormat []
  | Some _ =>
      match find_phrase_col df with
      | None => Failed NoColumns []
      | Some phrase_col => process_file U self index (snd phrase_col) progress_callback
      end
  end.
End Input.

(** ** The web front end (app.py) *)

Definition ALLOWED_EXTENSIONS : gset ustring := {[ u "xlsx"; u "xls"; u "csv" ]}.

(** [s.rsplit(sep, 1)] for a one-character separator: the parts before
    and after the last separator, if there is one. *)
Fixpoint rsplit_last (sep : Z) (s : ustring) : option (ustring * ustring) :=
  match s with
  | [] => None
  | c :: rest =>
      match rsplit_last sep rest with
      | Some (before, after) => Some (c :: before, after)
      | None => if c =? sep then Some ([], rest) else None
      end
  end.

Definition rsplit1 (sep : Z) (s : ustring) : list ustring :=
  match rsplit_last sep s with
  | Some (before, after) => [before; after]
  | None => [s]
  end.

Definition allowed_file (U : UCD) (filename : ustring) : bool :=
  contains filename [46] &&
  match rsplit1 46 filename !! 1%nat with
  | Some ext => bool_decide (lower U ext ∈ ALLOWED_EXTENSIONS)
  | None => false
  end.

(** The value [progress_callback] stores for the task:
    [30 + int(progress * 0.6)]. *)
Definition task_progress (progress : Z) : Z :=
  30 + Float.to_int (Float.mul (inject_Z progress) (Float.round53 (6 # 10))).

(** * Statements: vocabulary and evaluation inputs *)

(** [returns r P]: the call returned normally, with a value satisfying [P]. *)
Definition returns {A} (r : result A) (P : A -> Prop) : Prop :=
  match r with
  | Ok a => P a
  | Raise _ => False
  end.

(** What the web form sends when both fields are left blank. *)
Definition blank_options : options_t :=
  {| opt_rank_limit := Some []; opt_custom_stopwords := Some [] |}.

Definition shoe_table : frame :=
  [(u "Keyword", [u "shoe"]); (u "Brand", [u "running shoe"])].

Definition shoe_brand_table : frame :=
  [(u "Keyword", [u "shoe"]); (u "Brand", [u "shoe"; u "running shoe"])].

(** The matcher object built from [shoe_table] with blank options. *)
Definition shoe_matcher : matcher :=
  {| stopwords := DEFAULT_STOPWORDS; rank_limit := None;
     keyword_list := [u "shoe"];
     type_list := []; gender_list := []; size_list := []; age_list := [];
     brand_list := [u "running shoe"];
     keyword_index := _build_index ucd_basic [u "shoe"];
     type_index := ∅; gender_index := ∅; size_index := ∅; age_index := ∅;
     brand_index := _build_index ucd_basic [u "running shoe"] |}.

Definition plain_table : frame :=
  [(u "Name", [u "shoe"; u "boot"]); (u "Other", [u "red"; u "blue"])].

Definition plain_matcher : matcher :=
  {| stopwords := ∅; rank_limit := None;
     keyword_list := [u "shoe"; u "boot"];
     type_list := []; gender_list := []; size_list := [];
     age_list := []; brand_list := [];
     keyword_index := _build_index ucd_basic [u "shoe"; u "boot"];
     type_index := ∅; gender_index := ∅; size_index := ∅;
     age_index := ∅; brand_index := ∅ |}.

(** Does the span of a recorded match contain position [j]? *)
Definition covers (j : nat) (k : match_t) : bool :=
  (snd (fst k) <=? j)%nat && (Z.of_nat j <=? snd k).

(** The substrings that select a role, as the conditions of the chain
    test them. *)
Definition mentions (U : UCD) (role : string) (c : ustring) : bool :=
  if bool_decide (role = "Keyword"%string)
  then contains (lower U c) (u "keyword") || contains c [0x5173; 0x952e; 0x8bcd]
  else if bool_decide (role = "Type"%string)
  then contains (lower U c) (u "type") || contains c [0x7c7b; 0x578b]
  else if bool_decide (role = "Gender"%string)
  then contains (lower U c) (u "gender") || contains c [0x6027; 0x522b]
  else if bool_decide (role = "Size"%string)
  then contains (lower U c) (u "size") || contains c [0x5c3a; 0x7801]
  else if bool_decide (role = "Special Age"%string)
  then contains (lower U c) (u "age") || contains c [0x5e74; 0x9f84]
       || contains (lower U (replace_char 32 [] c)) (u "specialage")
  else if bool_decide (role = "Brand"%string)
  then contains (lower U c) (u "brand") || contains c [0x54c1; 0x724c]
  else false.

(** The roles in the order of the [if]/[elif] chain. *)
Definition role_chain : list string :=
  ["Keyword"; "Type"; "Gender"; "Size"; "Special Age"; "Brand"]%string.

Definition headers_of (U : UCD) (df : frame) : list ustring :=
  List.map (fun col => normalize_header U (fst col)) df.

(** [succeeds r P]: the run answered with success, with an outcome
    satisfying [P]. *)
Definition succeeds (r : run) (P : outcome -> Prop) : Prop :=
  match r with
  | Success o => P o
  | Failed _ _ => False
  end.

(** The progress expression has a value for the label of each of the
    first [n] rows. *)
Definition reportable (index : row_index) (n : nat) : Prop :=
  forall i, (i < n)%nat -> is_Some (progress_of (index i) n).

(** The events of one iteration that raises nothing. *)
Definition row_events (U : UCD) (self : matcher) (progress_callback : bool)
    (index : row_index) (total_rows : nat) (ic : nat * option ustring) : list event :=
  Appended (result_row_of U self (snd ic)) ::
  (if progress_callback
   then match progress_of (index (fst ic)) total_rows with
        | Some progress => [Progress progress]
        | None => []
        end
   else []).


Definition row_lt (a b : entry) : Prop := (snd a < snd b)%nat.

(** [precedes a b]: [a] may stand before [b] in a bucket: its key is not
    smaller, and on equal keys its row comes first. *)
Definition precedes (U : UCD) (a b : entry) : Prop :=
  key_le (sort_key U b) (sort_key U a) = true /\
  (sort_key U a = sort_key U b -> (snd a < snd b)%nat).

(** Buckets under construction: rows ascending, all below the next row. *)
Definition rows_below (n : nat) (index : gmap ustring (list entry)) : Prop :=
  forall k b, index !! k = Some b ->
    StronglySorted row_lt b /\ Forall (fun e => (snd e < n)%nat) b.

(** Entries of an index are never the empty string. *)
Definition entries_nonempty (index : gmap ustring (list entry)) : Prop :=
  forall k b, index !! k = Some b -> Forall (fun e => fst e <> []) b.

(** The code points [strQ2B] rewrites. *)
Definition fold_range (c : Z) : bool := (c =? 12288) || in_range 65281 65374 c.

(** What the argument needs of the character database: U+0020 is a
    caseless space; a lowercase mapping yields code points that lowercase
    to themselves, never U+03A3, and full-width forms only from full-width
    forms; the two small sigmas lowercase to themselves. *)
Record UCD_ok (U : UCD) : Prop := {
  ok_space : isspace U 32 = true;
  ok_lower_space : lower_full U 32 = [32];
  ok_lower_stable : forall c d, d ∈ lower_full U c -> lower_full U d = [d] /\ d <> 0x3A3;
  ok_lower_fold : forall c d, d ∈ lower_full U c -> fold_range d = true -> fold_range c = true;
  ok_sigma : lower_full U 0x3C2 = [0x3C2] /\ lower_full U 0x3C3 = [0x3C3]
}.

(** A code point that a further [strQ2B] and [lower] leave alone. *)
Definition settled (U : UCD) (d : Z) : Prop :=
  lower_full U d = [d] /\ d <> 0x3A3 /\ fold_range d = false.

(** A word as [split] returns it: not empty, no space inside. *)
Definition token (U : UCD) (w : ustring) : Prop :=
  w <> [] /\ Forall (fun c => isspace U c = false) w.


Definition nonempty {A} (l : list A) : bool :=
  match l with [] => false | _ => true end.

(** The rows of the batch whose extraction has a non-empty sequence for
    the field. *)
Definition matched_rows (U : UCD) (self : matcher)
    (field : extraction -> list ustring) (rows : list (option ustring)) : nat :=
  length (List.filter
            (fun cell => nonempty (field (extract_all U self (default [] cell)))) rows).

(** [count / total * 100] in floats. *)
Definition percent (count total : nat) : Q :=
  Float.mul (Float.truediv (Z.of_nat count) (Z.of_nat total)) 100.

(** The same product in the IEEE 754 binary64 arithmetic that the standard
    library specifies ([SpecFloat]), for comparison with [percent]. *)
Definition b64_of_Z (z : Z) : spec_float := binary_normalize 53 1024 z 0 false.

Definition b64_value (x : spec_float) : Q :=
  match x with
  | S754_finite s m e => (inject_Z (cond_Zopp s (Zpos m)) * 2 ^ e)%Q
  | _ => 0%Q
  end.

Definition b64_percent (count total : nat) : spec_float :=
  SFmul 53 1024
    (SFdiv 53 1024 (b64_of_Z (Z.of_nat count)) (b64_of_Z (Z.of_nat total)))
    (b64_of_Z 100).

(** The value [_build_index] stores for a row, and the key it files it
    under. *)
Definition normalized (U : UCD) (word : ustring) : ustring :=
  strQ2B (lower U (strip U word)).

Definition first_token (U : UCD) (w : ustring) : ustring :=
  match split U w with f :: _ => f | [] => w end.

Definition match_start (k : match_t) : nat := snd (fst k).
Definition match_end (k : match_t) : Z := snd k.

(** A recorded match is sound for the token sequence: its span lies in
    the sequence and the tokens of the span, joined, are its text. *)
Definition sound_match (U : UCD) (words : list ustring) (k : match_t) : Prop :=
  let n := length (split U (match_text k)) in
  match_end k = Z.of_nat (match_start k) + Z.of_nat n - 1 /\
  (match_start k + n <= length words)%nat /\
  join [32] (take n (drop (match_start k) words)) = match_text k.

(** The matches of the six fields together. *)
Definition all_matches (fm : field_matches) : list match_t :=
  m_keywords fm ++ m_brands fm ++ m_types fm ++ m_sizes fm ++ m_ages fm ++ m_genders fm.

(** The invariant of the scan, at position [n]. *)
Definition pass_inv (U : UCD) (words : list ustring) (used0 : gset nat) (n : nat)
    (st : list match_t * gset nat) : Prop :=
  Forall (sound_match U words) (fst st) /\
  Forall (fun k => (match_start k < n)%nat /\ match_start k ∉ used0) (fst st) /\
  StronglySorted (fun a b => match_end a < Z.of_nat (match_start b)) (fst st) /\
  (forall j, j ∈ snd st <-> j ∈ used0 \/ existsb (covers j) (fst st) = true).


(** [kw] is the normalized value of some row of the list. *)
Definition reference_value (U : UCD) (word_list : list ustring) (kw : ustring) : Prop :=
  exists i word, word_list !! i = Some word /\ kw = normalized U word.

(** No token is a key of the index. *)
Definition no_key (index : gmap ustring (list entry)) (words : list ustring) : Prop :=
  Forall (fun w => index !! w = None) words.


(** The list the loader builds for a role other than Keyword: the cells of
    the column whose normalized label the role is mapped to, or nothing. *)
Definition role_cells (U : UCD) (df : frame) (role : string) (l : list ustring) : Prop :=
  match build_col_map U (headers_of U df) !! role with
  | Some label => exists col, col ∈ df /\ normalize_header U (fst col) = label /\ l = snd col
  | None => l = []
  end.


(** How often [w] occurs in [l]. *)
Definition occurrences (w : ustring) (l : list ustring) : nat :=
  length (List.filter (fun x => bool_decide (x = w)) l).

(** The count a counter holds for [w] (0 when it has no entry). *)
Definition counter_get (c : list (ustring * nat)) (w : ustring) : nat :=
  match List.find (fun p => bool_decide (fst p = w)) c with
  | Some p => snd p
  | None => 0%nat
  end.

(** A well-formed counter: one entry per word, every count positive. *)
Definition counter_ok (c : list (ustring * nat)) : Prop :=
  NoDup (List.map fst c) /\ Forall (fun p => (0 < snd p)%nat) c.

(** The tokens [_generate_statistics] counts. *)
Definition all_uncovered (results : list result_row) : list ustring :=
  List.concat
    (List.map (fun r => if truthy (row_uncovered r)
                        then split_sep comma_space (row_uncovered r) else [])
       results).

(** [stored_before a b]: the order of a bucket, [a] before [b]: more
    tokens; or as many tokens and more characters; or as many of both and
    the earlier row. *)
Definition stored_before (U : UCD) (a b : entry) : Prop :=
  (length (split U (fst b)) < length (split U (fst a)))%nat \/
  (length (split U (fst a)) = length (split U (fst b)) /\
   (length (fst b) < length (fst a))%nat) \/
  (length (split U (fst a)) = length (split U (fst b)) /\
   length (fst a) = length (fst b) /\ (snd a < snd b)%nat).

(** The text [keyword] lies in the token sequence at position [i]: the
    span of as many tokens as it has starts at [i], ends within the
    sequence and, joined by single spaces, equals it. *)
Definition spans (U : UCD) (words : list ustring) (i : nat) (keyword : ustring) : Prop :=
  (i + length (split U keyword) <= length words)%nat /\
  join [32] (take (length (split U keyword)) (drop i words)) = keyword.

(** * Properties *)

(** ** Non-overlap (C1) *)

(** C1. The non-overlap invariant does not hold of the code: a multi-token
    entry is tested only at its start position, so with the keyword "shoe"
    and the brand "running shoe" the phrase "running shoe" has position 1
    claimed by the Keyword pass and again by the Brand pass. *)
Theorem overlap_running_shoe :
  returns (WebKeywordMatcher ucd_basic shoe_table blank_options) (fun self =>
    let cleaned := clean_phrase ucd_basic (stopwords self) (u "running shoe") in
    let fm := match_fields ucd_basic self cleaned in
    cleaned = u "running shoe" /\
    m_keywords fm = [(u "shoe", 1%nat, 1)] /\
    m_brands fm = [(u "running shoe", 0%nat, 1)] /\
    existsb (covers 1) (m_keywords fm) = true /\
    existsb (covers 1) (m_brands fm) = true /\
    keywords (extract_all ucd_basic self (u "running shoe")) = [u "shoe"] /\
    brands (extract_all ucd_basic self (u "running shoe")) = [u "running shoe"]).
Proof. vm_compute. repeat split; reflexivity. Qed.

(** What the used set does guarantee: a pass records matches only at start
    positions that were free when it began, and it only adds to the set. *)
Lemma match_from_index_starts_free (U : UCD) (phrase : ustring)
    (index : gmap ustring (list entry)) (used_positions : gset nat) :
  Forall (fun k => snd (fst k) ∉ used_positions)
    (fst (match_from_index U phrase index used_positions)) /\
  used_positions ⊆ snd (match_from_index U phrase index used_positions).
Proof.
  unfold match_from_index.
  generalize (enumerate (split U phrase)) as l.
  assert (H0 : Forall (fun k : match_t => snd (fst k) ∉ used_positions)
                 (fst (([] : list match_t), used_positions)) /\
               used_positions ⊆ snd (([] : list match_t), used_positions))
    by (split; [constructor | done]).
  revert H0. generalize (([] : list match_t), used_positions) as st.
  intros st H0 l. revert st H0.
  induction l as [| [i word] l IH]; intros st H0; [done |].
  cbn [fold_left]. apply IH. clear IH.
  destruct st as [matches used]. destruct H0 as [Hm Hu]. cbn [fst snd] in *.
  unfold match_step.
  destruct (bool_decide (i ∈ used)) eqn:Hi; [done |].
  apply bool_decide_eq_false in Hi.
  destruct (index !! word) as [cands |]; [| done].
  destruct (try_candidates U (split U phrase) i word cands) as [kw |]; [| done].
  cbn [fst snd]. split; [| set_solver].
  apply Forall_app. split; [done |].
  repeat constructor. unfold match_of; cbn [fst snd]. set_solver.
Qed.

(** ** Field priority (C3) *)

(** C3. With "shoe" in both the Keyword and the Brand list, the token
    "shoe" at position 1 of "running shoe" is claimed by Keyword, and yet it
    is part of the Brand match "running shoe" recorded for the phrase. *)
Theorem keyword_token_in_brand_output :
  returns (WebKeywordMatcher ucd_basic shoe_brand_table blank_options) (fun self =>
    keyword_index self !! u "shoe" = Some [(u "shoe", 0%nat)] /\
    brand_index self !! u "shoe" = Some [(u "shoe", 0%nat)] /\
    let fm := match_fields ucd_basic self (u "running shoe") in
    split ucd_basic (u "running shoe") !! 1%nat = Some (u "shoe") /\
    existsb (covers 1) (m_keywords fm) = true /\
    existsb (covers 1) (m_brands fm) = true /\
    extract_all ucd_basic self (u "running shoe") =
      {| keywords := [u "shoe"]; brands := [u "running shoe"]; types := [];
         sizes := []; ages := []; genders := []; uncovered_words := [] |}).
Proof. vm_compute. repeat split; reflexivity. Qed.

(** ** Rank limit (C10) *)

(** C10. The guard before [int] is [isdigit], which accepts code points
    that are digits but not decimal digits: for the rank limit "²"
    (U+00B2) the constructor raises [ValueError] instead of processing all
    rows. *)
Theorem rank_limit_superscript_raises :
  str_isdigit ucd_basic [0xB2] = true /\
  _parse_rank_limit ucd_basic
    {| opt_rank_limit := Some [0xB2]; opt_custom_stopwords := Some [] |}
    = Raise ValueError /\
  WebKeywordMatcher ucd_basic shoe_table
    {| opt_rank_limit := Some [0xB2]; opt_custom_stopwords := Some [] |}
    = Raise ValueError.
Proof. vm_compute. repeat split; reflexivity. Qed.

(** Where the guard is enough: when the option has no more code points
    than [int] accepts digits and every digit code point of it is a
    decimal digit, the constructor step returns, and a limit is set only
    for a string of digits. *)
Lemma parse_rank_limit_decimal (U : UCD) (options : options_t) :
  (forall s, opt_rank_limit options = Some s ->
     Z.of_nat (length s) <= int_max_str_digits) ->
  (forall s c, opt_rank_limit options = Some s -> c ∈ s ->
     isdigit U c = true -> is_Some (decimal U c)) ->
  exists r, _parse_rank_limit U options = Ok r /\
    (is_Some r -> exists s, opt_rank_limit options = Some s /\ str_isdigit U s = true).
Proof.
  intros Hlen Hdec.
  assert (Hguard : _parse_rank_limit U options
            = if str_isdigit U (default [] (opt_rank_limit options))
              then n ← py_int U (default [] (opt_rank_limit options)); Ok (Some n)
              else Ok None).
  { unfold _parse_rank_limit. by destruct (default [] _). }
  rewrite Hguard. clear Hguard.
  destruct (opt_rank_limit options) as [s |] eqn:Hs; cbn [default from_option id];
    [| exists None; split; [reflexivity | by intros [? [=]]]].
  destruct (str_isdigit U s) eqn:Hd;
    [| exists None; split; [reflexivity | by intros [? [=]]]].
  assert (Hall : Forall (fun c => is_Some (decimal U c)) s).
  { apply Forall_forall. intros c Hc. apply (Hdec s c eq_refl Hc).
    unfold str_isdigit in Hd. destruct s; [discriminate |].
    rewrite forallb_forall in Hd. apply Hd. by apply list_elem_of_In. }
  assert (Hint : forall acc, exists n, int_digits U acc s = Ok n).
  { clear Hd Hdec Hs Hlen. induction Hall as [| c s [d Hc] Hall IH]; intros acc; cbn.
    - by exists acc.
    - rewrite Hc. apply IH. }
  destruct (Hint 0) as [n Hn]. unfold py_int.
  rewrite (proj2 (Z.ltb_ge _ _) (Hlen s eq_refl)), Hn. cbn.
  exists (Some n). split; [done |]. intros _. by exists s.
Qed.

(** ** Column mapping (C4, C5) *)

Section ColumnMapping.
Context (U : UCD).

Lemma build_col_map_snoc (columns : list ustring) (c : ustring) :
  build_col_map U (columns ++ [c]) = col_map_step U (build_col_map U columns) c.
Proof. unfold build_col_map. by rewrite fold_left_app. Qed.

Lemma header_role_chain (c : ustring) :
  header_role U c = List.find (fun role => mentions U role c) role_chain.
Proof.
  unfold header_role, role_chain, mentions; cbn [List.find].
  repeat (rewrite ?bool_decide_eq_true_2 by reflexivity;
          rewrite ?bool_decide_eq_false_2 by discriminate;
          match goal with
          | |- context [if ?b then Some _ else _] => destruct b; [reflexivity |]
          end).
  reflexivity.
Qed.

Lemma column_tolist_head (label : ustring) (cells0 cells : list ustring) (df : frame) :
  column_tolist ((label, cells0) :: df) label = Ok cells -> cells = cells0.
Proof.
  unfold column_tolist; cbn [List.filter fst].
  rewrite bool_decide_eq_true_2 by reflexivity.
  destruct (List.filter _ df); [| discriminate].
  by intros [= <-].
Qed.

Lemma field_list_unmapped (df : frame) (col_map : gmap string ustring)
    (role : string) (l : list ustring) :
  field_list df col_map role = Ok l -> col_map !! role = None -> l = [].
Proof. unfold field_list. intros H Hnone. rewrite Hnone in H. by injection H. Qed.
End ColumnMapping.

(** C5 (as amended). Each header takes the first branch of the chain
    Keyword, Type, Gender, Size, Special Age, Brand whose substring it
    contains, and a role is mapped to the last header in column order that
    takes its branch: a later header overwrites an earlier one. *)
Theorem col_map_last_header (U : UCD) (columns : list ustring) (role : string) :
  build_col_map U columns !! role
    = last (List.filter (fun c => bool_decide (header_role U c = Some role)) columns)
  /\ forall c, header_role U c = List.find (fun r => mentions U r c) role_chain.
Proof.
  split; [| apply header_role_chain].
  induction columns as [| c columns IH] using rev_ind; [done |].
  rewrite build_col_map_snoc, List.filter_app; cbn [List.filter].
  unfold col_map_step.
  destruct (header_role U c) as [r |] eqn:Hr.
  - destruct (decide (r = role)) as [-> | Hne].
    + rewrite lookup_insert_eq, bool_decide_eq_true_2 by reflexivity.
      by rewrite last_snoc.
    + rewrite lookup_insert_ne by done.
      rewrite bool_decide_eq_false_2 by congruence.
      by rewrite app_nil_r.
  - rewrite bool_decide_eq_false_2 by discriminate. by rewrite app_nil_r.
Qed.

(** C5 fails as stated: of two headers that both contain "keyword", the
    role is mapped to the second, not to the first. *)
Lemma col_map_not_first_header :
  let columns := List.map (normalize_header ucd_basic) [u "Keyword"; u "Keyword 2"] in
  List.filter (mentions ucd_basic "Keyword") columns = [u "Keyword"; u "Keyword2"] /\
  build_col_map ucd_basic columns !! "Keyword"%string = Some (u "Keyword2") /\
  build_col_map ucd_basic columns !! "Keyword"%string <> Some (u "Keyword").
Proof. vm_compute. repeat split; try reflexivity; discriminate. Qed.

(** C4 (as amended). After a successful load, a Keyword role left unmapped
    by the header scan takes the cells of the first column; every other
    unmapped role (Type, Gender, Size, Special Age, Brand) has the empty
    list. *)
Theorem fallback_only_for_keyword (U : UCD) (stop : gset ustring)
    (rl : option Z) (df : frame) (self : matcher) :
  _load_keyword_database U stop rl df = Ok self ->
  let col_map := build_col_map U (headers_of U df) in
  (col_map !! "Keyword"%string = None -> snd <$> head df = Some (keyword_list self)) /\
  (col_map !! "Type"%string = None -> type_list self = []) /\
  (col_map !! "Gender"%string = None -> gender_list self = []) /\
  (col_map !! "Size"%string = None -> size_list self = []) /\
  (col_map !! "Special Age"%string = None -> age_list self = []) /\
  (col_map !! "Brand"%string = None -> brand_list self = []).
Proof.
  unfold _load_keyword_database, headers_of.
  destruct df as [| [h0 c0] df]; [discriminate |].
  cbn [List.map fst snd List.combine head].
  set (col_map := build_col_map U _).
  set (kdf := (normalize_header U h0, c0) :: _).
  destruct (column_tolist kdf _) as [kl |] eqn:Hk; [| discriminate].
  destruct (field_list kdf _ "Type") as [tl |] eqn:Ht; [| discriminate].
  destruct (field_list kdf _ "Gender") as [gl |] eqn:Hg; [| discriminate].
  destruct (field_list kdf _ "Size") as [sl |] eqn:Hs; [| discriminate].
  destruct (field_list kdf _ "Special Age") as [al |] eqn:Ha; [| discriminate].
  destruct (field_list kdf _ "Brand") as [bl |] eqn:Hb; [| discriminate].
  cbn [mbind result_bind]. intros [= <-].
  cbn [keyword_list type_list gender_list size_list age_list brand_list].
  repeat split; intros Hnone;
    try (eapply field_list_unmapped; eassumption).
  rewrite Hnone in Hk. cbn [default] in Hk.
  by rewrite (column_tolist_head _ _ _ _ Hk).
Qed.

Lemma fallback_only_for_keyword_witness :
  _load_keyword_database ucd_basic ∅ None plain_table = Ok plain_matcher /\
  snd <$> head plain_table = Some (keyword_list plain_matcher) /\
  type_list plain_matcher = [] /\ gender_list plain_matcher = [] /\
  size_list plain_matcher = [] /\ age_list plain_matcher = [] /\
  brand_list plain_matcher = [].
Proof.
  assert (E : _load_keyword_database ucd_basic ∅ None plain_table = Ok plain_matcher)
    by (vm_compute; reflexivity).
  split; [exact E |].
  destruct (fallback_only_for_keyword ucd_basic ∅ None plain_table plain_matcher E)
    as (H1 & H2 & H3 & H4 & H5 & H6).
  refine (conj (H1 _) (conj (H2 _) (conj (H3 _) (conj (H4 _) (conj (H5 _) (H6 _))))));
    vm_compute; reflexivity.
Defined.

(** C4 fails as stated: with no header naming a role, the Keyword list is
    the first column, but the Type list (and each other list) is empty, not
    the first column. *)
Lemma unmapped_role_not_first_column :
  returns (WebKeywordMatcher ucd_basic plain_table blank_options) (fun self =>
    build_col_map ucd_basic (headers_of ucd_basic plain_table) !! "Type"%string = None /\
    keyword_list self = [u "shoe"; u "boot"] /\
    type_list self = [] /\
    Some (type_list self) <> snd <$> head plain_table).
Proof. vm_compute. repeat split; discriminate. Qed.

(** ** The batch loop *)

Section BatchLog.
Context (U : UCD) (self : matcher).

Lemma row_step_log cb index total rows acc :
  (cb = true ->
   Forall (fun ic => is_Some (progress_of (index (fst ic)) total)) rows) ->
  fold_left (row_step U self cb index total) rows (acc, None)
    = (acc ++ flat_map (row_events U self cb index total) rows, None).
Proof.
  revert acc. induction rows as [| [idx cell] rows IH]; intros acc Hok.
  - cbn. by rewrite app_nil_r.
  - cbn [fold_left flat_map row_step row_events fst snd]. destruct cb.
    + destruct (Forall_cons_1 _ _ _ (Hok eq_refl)) as [[v Hv] Hrest].
      cbn [fst] in Hv. rewrite Hv, IH by (intros _; exact Hrest).
      unfold row_events at 2. cbn [fst snd]. rewrite Hv. by rewrite <- !app_assoc.
    + rewrite IH by done. unfold row_events at 2. by rewrite <- !app_assoc.
Qed.




Lemma snd_enumerate_from {A} (l : list A) k :
  List.map snd (List.combine (seq k (length l)) l) = l.
Proof. revert k. induction l as [| x l IH]; intros k; cbn; [done |]. by rewrite IH. Qed.

Lemma results_of_events cb index total rows :
  results_of (flat_map (row_events U self cb index total) rows)
    = List.map (fun ic => result_row_of U self (snd ic)) rows.
Proof.
  induction rows as [| ic rows IH]; [done |].
  cbn. destruct cb; [destruct (progress_of _ _) |]; cbn; by rewrite <- IH.
Qed.

Lemma enumerate_reportable {A} index (rows : list A) :
  reportable index (length rows) ->
  Forall (fun ic => is_Some (progress_of (index (fst ic)) (length rows)))
    (enumerate rows).
Proof.
  intros Hok. apply Forall_forall. intros [i x] Hin.
  apply list_elem_of_In, in_combine_l, in_seq in Hin. apply Hok. cbn. lia.
Qed.

(** A run whose progress expression has a value at every row succeeds,
    with the events of its rows in order. *)
Lemma process_file_success index df cb :
  (cb = true -> reportable index (length (apply_rank_limit self df))) ->
  process_file U self index df cb
    = Success
        {| log := flat_map (row_events U self cb index (length (apply_rank_limit self df)))
                    (enumerate (apply_rank_limit self df));
           total_processed := length (apply_rank_limit self df);
           stats := _generate_statistics
                      (List.map (result_row_of U self) (apply_rank_limit self df)) |}.
Proof.
  intros Hok. unfold process_file.
  rewrite row_step_log, app_nil_l by (intros Hcb; by apply enumerate_reportable, Hok).
  rewrite results_of_events, <- (List.map_map snd (result_row_of U self)).
  unfold enumerate at 2. by rewrite snd_enumerate_from.
Qed.


End BatchLog.


Lemma shoe_matcher_loaded :
  WebKeywordMatcher ucd_basic shoe_table blank_options = Ok shoe_matcher.
Proof. vm_compute. reflexivity. Qed.


(** ** The order of a bucket *)

Section LongestFirst.
Context (U : UCD).

Ltac key_cases :=
  unfold key_le in *; cbn [fst snd] in *;
  repeat match goal with
         | H : context [(?a <? ?b)%nat] |- _ => destruct (Nat.ltb_spec a b)
         | H : context [(?a =? ?b)%nat] |- _ => destruct (Nat.eqb_spec a b)
         | H : context [(?a <=? ?b)%nat] |- _ => destruct (Nat.leb_spec a b)
         | |- context [(?a <? ?b)%nat] => destruct (Nat.ltb_spec a b)
         | |- context [(?a =? ?b)%nat] => destruct (Nat.eqb_spec a b)
         | |- context [(?a <=? ?b)%nat] => destruct (Nat.leb_spec a b)
         end;
  cbn [orb andb] in *; try discriminate; try reflexivity; try lia.

Lemma key_le_refl a : key_le a a = true.
Proof. destruct a. key_cases. Qed.

Lemma key_le_total a b : key_le a b = false -> key_le b a = true.
Proof. destruct a, b. intros H. key_cases. Qed.

Lemma key_le_trans a b c :
  key_le a b = true -> key_le b c = true -> key_le a c = true.
Proof. destruct a, b, c. intros H1 H2. key_cases. Qed.

Lemma key_le_antisym a b : key_le a b = true -> key_le b a = true -> a = b.
Proof. destruct a, b. intros H1 H2. key_cases. f_equal; lia. Qed.

Lemma Forall_insert_desc (P : entry -> Prop) x l :
  Forall P (insert_desc U x l) <-> P x /\ Forall P l.
Proof.
  induction l as [| y l IH]; cbn.
  - rewrite Forall_singleton, Forall_nil. tauto.
  - destruct (key_le _ _).
    + rewrite !Forall_cons. tauto.
    + rewrite !Forall_cons, IH. tauto.
Qed.

Lemma Forall_sort_desc (P : entry -> Prop) l :
  Forall P (sort_desc U l) <-> Forall P l.
Proof.
  induction l as [| x l IH]; [done |].
  cbn. rewrite Forall_insert_desc, Forall_cons, IH. tauto.
Qed.

Lemma insert_desc_sorted x l :
  StronglySorted (precedes U) l -> Forall (row_lt x) l ->
  StronglySorted (precedes U) (insert_desc U x l).
Proof.
  induction l as [| y l IH]; intros Hs Hx; cbn.
  - repeat constructor.
  - apply StronglySorted_cons in Hs as [Hy Hs].
    apply Forall_cons in Hx as [Hxy Hx].
    destruct (key_le (sort_key U y) (sort_key U x)) eqn:Hk.
    + apply StronglySorted_cons. split; [| by apply StronglySorted_cons].
      apply Forall_cons. split; [by split |].
      rewrite Forall_forall in Hy, Hx |- *. intros z Hz.
      destruct (Hy z Hz) as [Hzy _].
      split; [eauto using key_le_trans | intros _; by apply Hx].
    + apply StronglySorted_cons. split; [| by apply IH].
      apply Forall_insert_desc. split; [| done].
      split; [by apply key_le_total |].
      intros Heq. rewrite Heq, key_le_refl in Hk. discriminate.
Qed.

(** The sort puts every bucket in descending key order and keeps the
    row order among equal keys. *)
Lemma sort_desc_sorted l :
  StronglySorted row_lt l -> StronglySorted (precedes U) (sort_desc U l).
Proof.
  induction l as [| x l IH]; intros Hs; cbn; [constructor |].
  apply StronglySorted_cons in Hs as [Hx Hs].
  apply insert_desc_sorted; [by apply IH | by apply Forall_sort_desc].
Qed.

Lemma index_add_rows n index word :
  rows_below n index -> rows_below (S n) (index_add U index (n, word)).
Proof.
  intros Hinv k b. unfold index_add.
  assert (Hweak : index !! k = Some b ->
            StronglySorted row_lt b /\ Forall (fun e => (snd e < S n)%nat) b).
  { intros Hb. destruct (Hinv k b Hb) as [H1 H2]. split; [done |].
    eapply Forall_impl; [exact H2 | cbn; lia]. }
  destruct (strQ2B _) as [| c w] eqn:Hw; [done |].
  set (first := match split U (c :: w) with f :: _ => f | [] => c :: w end).
  destruct (decide (first = k)) as [<- | Hne].
  - rewrite lookup_insert_eq. intros [= <-].
    destruct (index !! first) as [b0 |] eqn:Hb0; cbn [default].
    + destruct (Hinv first b0 Hb0) as [H1 H2]. split.
      * apply StronglySorted_app. repeat split; [| done | repeat constructor].
        intros x1 x2 Hx1 ->%list_elem_of_singleton.
        rewrite Forall_forall in H2. by apply H2.
      * apply Forall_app. split; [| repeat constructor; cbn; lia].
        eapply Forall_impl; [exact H2 | cbn; lia].
    + split; repeat constructor; cbn; lia.
  - by rewrite lookup_insert_ne.
Qed.

Lemma fold_index_add_rows word_list n index :
  rows_below n index ->
  rows_below (n + length word_list)
    (fold_left (index_add U) (List.combine (seq n (length word_list)) word_list) index).
Proof.
  revert n index. induction word_list as [| w l IH]; intros n index Hinv; cbn.
  - by rewrite Nat.add_0_r.
  - replace (n + S (length l))%nat with (S n + length l)%nat by lia.
    apply IH. by apply index_add_rows.
Qed.

Lemma build_index_sorted word_list first bucket :
  _build_index U word_list !! first = Some bucket ->
  StronglySorted (precedes U) bucket.
Proof.
  unfold _build_index, enumerate. rewrite lookup_fmap.
  destruct (fold_left _ _ _ !! first) as [raw |] eqn:Hraw; [| discriminate].
  intros [= <-]. apply sort_desc_sorted.
  eapply (fold_index_add_rows word_list 0 ∅); [| exact Hraw].
  intros k b Hb. by rewrite lookup_empty in Hb.
Qed.

(** The inner loop stops at the first candidate that matches; what
    follows it in the bucket has no influence. *)
Lemma try_candidates_first words i word cands :
  Exists (fun c => fits U words i word (fst c) = true) cands ->
  exists pre E' post,
    cands = pre ++ E' :: post /\
    Forall (fun c => fits U words i word (fst c) = false) pre /\
    fits U words i word (fst E') = true /\
    forall post', try_candidates U words i word (pre ++ E' :: post') = Some (fst E').
Proof.
  induction cands as [| [kw row] cands IH]; intros Hex; [by inversion Hex |].
  destruct (fits U words i word kw) eqn:Hfit.
  - exists [], (kw, row), cands. repeat split; [constructor | done |].
    intros post'. cbn. by rewrite Hfit.
  - inversion Hex as [? ? Hhd | ? ? Htl]; subst; cbn in *; [congruence |].
    destruct (IH Htl) as (pre & E' & post & -> & Hpre & HE' & Hindep).
    exists ((kw, row) :: pre), E', post.
    repeat split; [by constructor | done |].
    intros post'. cbn. by rewrite Hfit.
Qed.

Lemma fits_multi_text words i word kw1 kw2 :
  (1 < length (split U kw1))%nat ->
  length (split U kw2) = length (split U kw1) ->
  fits U words i word kw1 = true -> fits U words i word kw2 = true -> kw2 = kw1.
Proof.
  unfold fits. intros Hlen Heq. rewrite Heq.
  destruct (Nat.eqb_spec (length (split U kw1)) 1); [lia |].
  intros [_ H1%bool_decide_eq_true]%andb_true_iff [_ H2%bool_decide_eq_true]%andb_true_iff.
  congruence.
Qed.
End LongestFirst.

(** ** Cleaning twice (C7) *)

Section CleanTwice.
Context (U : UCD) (HU : UCD_ok U) (stop : gset ustring).

Lemma Q2B_char_no_fold c : fold_range (Q2B_char c) = false.
Proof. unfold Q2B_char, fold_range, in_range. repeat case_match; lia. Qed.

Lemma Q2B_char_fixed c : fold_range c = false -> Q2B_char c = c.
Proof. unfold Q2B_char, fold_range, in_range. repeat case_match; lia. Qed.

Lemma strQ2B_no_fold s : Forall (fun c => fold_range c = false) (strQ2B s).
Proof. apply List.Forall_map, Forall_forall. intros c _. apply Q2B_char_no_fold. Qed.

Lemma strQ2B_fixed s : Forall (fun c => fold_range c = false) s -> strQ2B s = s.
Proof.
  induction 1 as [| c s Hc Hs IH]; [done |].
  unfold strQ2B in *. cbn. by rewrite Q2B_char_fixed, IH.
Qed.

Lemma re_sub_space_no_fold s :
  Forall (fun c => fold_range c = false) s ->
  Forall (fun c => fold_range c = false) (re_sub_space U s).
Proof.
  intros H. apply List.Forall_map. eapply Forall_impl; [exact H |].
  intros c Hc. cbn. by destruct (re_keep U c).
Qed.

Lemma re_sub_space_fixed s :
  Forall (fun c => re_keep U c = true) s -> re_sub_space U s = s.
Proof.
  induction 1 as [| c s Hc Hs IH]; [done |].
  unfold re_sub_space in *. cbn. by rewrite Hc, IH.
Qed.

Lemma sigma_settled b a : settled U (handle_capital_sigma U b a).
Proof.
  destruct HU as [_ _ _ _ [H2 H3]].
  unfold handle_capital_sigma.
  repeat case_match; (split; [done | split; [lia | reflexivity]]).
Qed.

Lemma lower_from_settled b s :
  Forall (fun c => fold_range c = false) s -> Forall (settled U) (lower_from U b s).
Proof.
  intros Hs. revert b. induction Hs as [| c s Hc Hs IH]; intros b; cbn; [constructor |].
  apply Forall_app. split; [| apply IH].
  destruct (c =? 0x3A3) eqn:Hsig.
  - constructor; [apply sigma_settled | constructor].
  - apply Forall_forall. intros d Hd.
    destruct (ok_lower_stable U HU c d Hd) as [H1 H2].
    repeat split; [done | done |].
    destruct (fold_range d) eqn:Hf; [| done].
    rewrite (ok_lower_fold U HU c d Hd Hf) in Hc. discriminate.
Qed.

Lemma lower_from_fixed b s : Forall (settled U) s -> lower_from U b s = s.
Proof.
  intros Hs. revert b. induction Hs as [| c s (Hl & Hne & _) Hs IH]; intros b; cbn; [done |].
  apply Z.eqb_neq in Hne. by rewrite Hne, Hl, IH.
Qed.

Lemma split_tokens (P : Z -> Prop) s :
  Forall P s -> Forall (fun w => token U w /\ Forall P w) (split U s).
Proof.
  induction 1 as [| c rest Hc Hrest IH]; cbn; [constructor |].
  destruct (isspace U c) eqn:Hsp; [done |].
  assert (Hone : token U [c] /\ Forall P [c]).
  { repeat split; [done | |]; by repeat constructor. }
  destruct rest as [| d r]; [by repeat constructor |].
  destruct (isspace U d); [by constructor |].
  destruct (split U (d :: r)) as [| w ws]; [by repeat constructor |].
  apply Forall_cons in IH as [[[Hne Hw] HPw] IH].
  constructor; [| done].
  repeat split; [done | |]; by constructor.
Qed.

Lemma split_token_then w r :
  token U w -> split U (w ++ 32 :: r) = w :: split U r.
Proof.
  intros [Hne Hw]. induction Hw as [| c w Hc Hw IH]; [done |].
  cbn [app split]. rewrite Hc.
  destruct w as [| c' w]; cbn [app].
  - rewrite (ok_space U HU). cbn [split]. by rewrite (ok_space U HU).
  - apply Forall_cons in Hw as Hw'. destruct Hw' as [Hc' _]. rewrite Hc'.
    specialize (IH ltac:(done)). cbn [app] in IH. by rewrite IH.
Qed.

Lemma split_token_alone w : token U w -> split U w = [w].
Proof.
  intros [Hne Hw]. induction Hw as [| c w Hc Hw IH]; [done |].
  cbn [split]. rewrite Hc.
  destruct w as [| c' w]; [done |].
  apply Forall_cons in Hw as Hw'. destruct Hw' as [Hc' _]. rewrite Hc'.
  specialize (IH ltac:(done)). by rewrite IH.
Qed.

Lemma split_join ws : Forall (token U) ws -> split U (join [32] ws) = ws.
Proof.
  induction 1 as [| w ws Hw Hws IH]; [done |].
  destruct ws as [| w' ws]; [by apply split_token_alone |].
  change (join [32] (w :: w' :: ws)) with (w ++ 32 :: join [32] (w' :: ws)).
  by rewrite split_token_then, IH.
Qed.

Lemma Forall_join (P : Z -> Prop) ws :
  P 32 -> Forall (Forall P) ws -> Forall P (join [32] ws).
Proof.
  intros H32. induction 1 as [| w ws Hw Hws IH]; [constructor |].
  destruct ws as [| w' ws]; [done |].
  change (join [32] (w :: w' :: ws)) with (w ++ 32 :: join [32] (w' :: ws)).
  apply Forall_app. split; [done |]. by constructor.
Qed.

Lemma filter_filter {A} (f : A -> bool) l :
  List.filter f (List.filter f l) = List.filter f l.
Proof.
  induction l as [| x l IH]; [done |].
  cbn. destruct (f x) eqn:Hf; [| done]. cbn. by rewrite Hf, IH.
Qed.

Lemma Forall_filter_bool {A} (P : A -> Prop) (f : A -> bool) l :
  Forall P l -> Forall P (List.filter f l).
Proof.
  induction 1 as [| x l Hx Hl IH]; [constructor |].
  cbn. destruct (f x); [by constructor | done].
Qed.

(** The guard for the empty phrase returns what the body would. *)
Lemma clean_phrase_body phrase :
  clean_phrase U stop phrase
    = join [32] (List.filter (keep_word stop)
                   (split U (lower U (re_sub_space U (strQ2B phrase))))).
Proof. by destruct phrase. Qed.

Lemma space_good : settled U 32 /\ re_keep U 32 = true.
Proof.
  repeat split; [apply (ok_lower_space U HU) | lia |].
  unfold re_keep. rewrite (ok_space U HU). by rewrite !orb_true_r.
Qed.

Lemma clean_phrase_twice x :
  forallb (re_keep U) (lower U (re_sub_space U (strQ2B x))) = true ->
  clean_phrase U stop (clean_phrase U stop x) = clean_phrase U stop x.
Proof.
  intros Hkeep. rewrite forallb_forall, <- List.Forall_forall in Hkeep.
  rewrite !clean_phrase_body.
  set (s2 := lower U (re_sub_space U (strQ2B x))) in *.
  assert (Hs2 : Forall (fun d => settled U d /\ re_keep U d = true) s2).
  { apply Forall_and. split; [| done].
    apply lower_from_settled, re_sub_space_no_fold, strQ2B_no_fold. }
  set (fs := List.filter (keep_word stop) (split U s2)).
  assert (Hfs : Forall (fun w => token U w /\
                  Forall (fun d => settled U d /\ re_keep U d = true) w) fs).
  { apply Forall_filter_bool. by apply split_tokens. }
  apply Forall_and in Hfs as [Htok Hgood].
  pose proof (Forall_join _ fs space_good Hgood) as Hout.
  apply Forall_and in Hout as [Hset Hkept].
  rewrite strQ2B_fixed.
  2: { eapply Forall_impl; [exact Hset |]. by intros d (_ & _ & Hd). }
  rewrite re_sub_space_fixed by done.
  unfold lower. rewrite lower_from_fixed by done.
  rewrite split_join by done.
  subst fs. by rewrite filter_filter.
Qed.
End CleanTwice.

Lemma ucd_basic_ok : UCD_ok ucd_basic.
Proof.
  split; try (vm_compute; split; reflexivity); try reflexivity.
  - intros c d. cbn. unfold basic_lower_full, basic_upper, in_range.
    repeat case_match; rewrite ?elem_of_cons, ?elem_of_nil;
      intros Hd; split; try lia;
      repeat (destruct Hd as [-> | Hd]; [| try done]);
      repeat case_match; try reflexivity; try lia; try done.
  - intros c d. cbn. unfold basic_lower_full, basic_upper, fold_range, in_range.
    repeat case_match; rewrite ?elem_of_cons, ?elem_of_nil;
      intros Hd; repeat (destruct Hd as [-> | Hd]; [| try done]);
      repeat case_match; try reflexivity; try lia; try done.
Qed.

(** C7 (as amended). Cleaning is idempotent on every phrase whose folded,
    stripped and lowercased text holds only code points the stripping
    pattern keeps (word characters, whitespace, CJK ideographs). *)
Theorem clean_phrase_idempotent (U : UCD) (stop : gset ustring) (x : ustring) :
  UCD_ok U ->
  forallb (re_keep U) (lower U (re_sub_space U (strQ2B x))) = true ->
  clean_phrase U stop (clean_phrase U stop x) = clean_phrase U stop x.
Proof. intros HU. by apply clean_phrase_twice. Qed.

Lemma clean_phrase_idempotent_witness :
  let x := u "The Quick-Brown FOX's, a b !" in
  clean_phrase ucd_basic DEFAULT_STOPWORDS x = u "quick brown fox" /\
  clean_phrase ucd_basic DEFAULT_STOPWORDS (clean_phrase ucd_basic DEFAULT_STOPWORDS x)
    = clean_phrase ucd_basic DEFAULT_STOPWORDS x.
Proof.
  intros x. split; [vm_compute; reflexivity |].
  apply (clean_phrase_idempotent ucd_basic DEFAULT_STOPWORDS x ucd_basic_ok).
  vm_compute. reflexivity.
Defined.

(** C7 fails as stated: lowercasing U+0130 gives "i" followed by the
    combining dot U+0307, which is not a word character; the first cleaning
    returns that pair, the second strips the dot and then drops "i". *)
Lemma clean_phrase_not_idempotent :
  clean_phrase ucd_basic DEFAULT_STOPWORDS [0x130] = [0x69; 0x307] /\
  clean_phrase ucd_basic DEFAULT_STOPWORDS [0x69; 0x307] = [] /\
  clean_phrase ucd_basic DEFAULT_STOPWORDS
    (clean_phrase ucd_basic DEFAULT_STOPWORDS [0x130])
    <> clean_phrase ucd_basic DEFAULT_STOPWORDS [0x130].
Proof. vm_compute. repeat split; try reflexivity; discriminate. Qed.

(** ** Floating-point rounding *)

Section Rounding.
Import Float.
Local Open Scope Q_scope.

Lemma pow2_pos e : 0 < 2 ^ e.
Proof. apply Qpower_0_lt. reflexivity. Qed.

Lemma pow2_lt e1 e2 : (e1 < e2)%Z -> 2 ^ e1 < 2 ^ e2.
Proof. intros H. apply Qpower_lt_compat_l; [exact H | reflexivity]. Qed.

Lemma pow2_le e1 e2 : (e1 <= e2)%Z -> 2 ^ e1 <= 2 ^ e2.
Proof. intros H. apply Qpower_le_compat_l; [exact H | discriminate]. Qed.

Lemma pow2_lt_inv e1 e2 : 2 ^ e1 < 2 ^ e2 -> (e1 < e2)%Z.
Proof. intros H. apply (Qpower_lt_compat_l_inv 2); [exact H | reflexivity]. Qed.

Lemma pow2_plus a b : 2 ^ (a + b) == 2 ^ a * 2 ^ b.
Proof. apply Qpower_plus. discriminate. Qed.

Lemma pow2_succ e : 2 ^ (e + 1) == 2 ^ e * 2.
Proof. rewrite pow2_plus. reflexivity. Qed.

Lemma pow2_cancel e : 2 ^ e * 2 ^ (- e) == 1.
Proof. rewrite <- pow2_plus. replace (e + - e)%Z with 0%Z by lia. reflexivity. Qed.

Lemma pow2_Z e : (0 <= e)%Z -> inject_Z (2 ^ e) == 2 ^ e.
Proof. intros H. apply (Zpower_Qpower 2 e H). Qed.

Ltac qcmp :=
  repeat match goal with
         | H : Qcompare _ _ = Eq |- _ => apply Qeq_alt in H
         | H : Qcompare _ _ = Lt |- _ => apply Qlt_alt in H
         | H : Qcompare _ _ = Gt |- _ => apply Qgt_alt in H
         end.

Lemma rne_floor x : (rne x = Qfloor x \/ rne x = Qfloor x + 1)%Z.
Proof. unfold rne. destruct (Qcompare _ _); [destruct (Z.even _) | |]; auto. Qed.

Lemma rne_mono x y : x <= y -> (rne x <= rne y)%Z.
Proof.
  intros Hxy.
  pose proof (Qfloor_resp_le x y Hxy) as Hf.
  destruct (Z.eq_dec (Qfloor x) (Qfloor y)) as [Heq | Hne].
  - unfold rne. rewrite <- Heq.
    destruct (Qcompare (x - inject_Z (Qfloor x)) (1 # 2)) eqn:Hx;
    destruct (Qcompare (y - inject_Z (Qfloor x)) (1 # 2)) eqn:Hy;
      try (destruct (Z.even (Qfloor x))); try lia;
      exfalso; qcmp; lra.
  - destruct (rne_floor x), (rne_floor y); lia.
Qed.

Lemma rne_Z z : rne (inject_Z z) = z.
Proof.
  unfold rne. rewrite Qfloor_Z.
  replace (Qcompare (inject_Z z - inject_Z z) (1 # 2)) with Lt; [reflexivity |].
  symmetry. apply (proj1 (Qlt_alt _ _)). lra.
Qed.

Lemma rne_proper x y : x == y -> rne x = rne y.
Proof.
  intros H. apply Z.le_antisymm; apply rne_mono; rewrite H; apply Qle_refl.
Qed.

(** The exponent of a positive rational. *)
Lemma qlog2_spec x : 0 < x -> 2 ^ qlog2 x <= x /\ x < 2 ^ (qlog2 x + 1).
Proof.
  intros Hx. unfold qlog2.
  destruct x as [a b]. cbn [Qnum Qden].
  assert (Ha : (0 < a)%Z) by (unfold Qlt in Hx; cbn in Hx; lia).
  pose proof (Z.log2_spec a Ha) as [Ha1 Ha2].
  pose proof (Z.log2_spec (Zpos b) (Pos2Z.is_pos b)) as [Hb1 Hb2].
  pose proof (Z.log2_nonneg a) as Hla.
  pose proof (Z.log2_nonneg (Zpos b)) as Hlb.
  set (la := Z.log2 a) in *. set (lb := Z.log2 (Zpos b)) in *.
  assert (HA1 : 2 ^ la <= inject_Z a)
    by (rewrite <- pow2_Z by lia; rewrite <- Zle_Qle; lia).
  assert (HA2 : inject_Z a < 2 ^ la * 2).
  { rewrite <- pow2_succ, <- pow2_Z by lia. rewrite <- Zlt_Qlt. lia. }
  assert (HB1 : 2 ^ lb <= inject_Z (Zpos b))
    by (rewrite <- pow2_Z by lia; rewrite <- Zle_Qle; lia).
  assert (HB2 : inject_Z (Zpos b) < 2 ^ lb * 2).
  { rewrite <- pow2_succ, <- pow2_Z by lia. rewrite <- Zlt_Qlt. lia. }
  assert (Hx' : a # b == inject_Z a / inject_Z (Zpos b)) by apply Qmake_Qdiv.
  pose proof (pow2_pos la) as Hpa. pose proof (pow2_pos lb) as Hpb.
  assert (Hsplit : forall k, 2 ^ (la - lb + k) == 2 ^ la * 2 ^ k / 2 ^ lb).
  { intros k. replace (la - lb + k)%Z with (la + k + - lb)%Z by lia.
    rewrite !pow2_plus. rewrite Qpower_opp. reflexivity. }
  assert (Hup : a # b < 2 ^ (la - lb + 1)).
  { rewrite Hx', Hsplit. change (2 ^ 1) with 2.
    apply Qlt_shift_div_l; [lra |].
    unfold Qdiv. rewrite <- Qmult_assoc, (Qmult_comm (/ _)), Qmult_assoc.
    apply Qlt_shift_div_r; [lra |]. nra. }
  assert (Hlow : 2 ^ (la - lb + -1) < a # b).
  { rewrite Hx', Hsplit. change (2 ^ (-1)) with (1 # 2).
    apply Qlt_shift_div_r; [lra |].
    unfold Qdiv. rewrite <- Qmult_assoc, (Qmult_comm (/ _)), Qmult_assoc.
    apply Qlt_shift_div_l; [lra |]. nra. }
  destruct (Qle_bool (2 ^ (la - lb)) (a # b)) eqn:Hle.
  - apply Qle_bool_iff in Hle. split; [exact Hle | exact Hup].
  - assert (Hlt : a # b < 2 ^ (la - lb)).
    { apply Qnot_le_lt. intros H. apply Qle_bool_iff in H. congruence. }
    replace (la - lb - 1 + 1)%Z with (la - lb)%Z by lia.
    replace (la - lb - 1)%Z with (la - lb + -1)%Z by lia.
    split; [apply Qlt_le_weak, Hlow | exact Hlt].
Qed.

Lemma qlog2_bounds x e1 e2 :
  0 < x -> 2 ^ e1 <= x -> x < 2 ^ e2 -> (e1 <= qlog2 x < e2)%Z.
Proof.
  intros Hx H1 H2. destruct (qlog2_spec x Hx) as [Hl Hu].
  assert (2 ^ e1 < 2 ^ (qlog2 x + 1)) as ?%pow2_lt_inv by lra.
  assert (2 ^ qlog2 x < 2 ^ e2) as ?%pow2_lt_inv by lra.
  lia.
Qed.

Lemma qlog2_mono x y : 0 < x -> x <= y -> (qlog2 x <= qlog2 y)%Z.
Proof.
  intros Hx Hxy.
  destruct (qlog2_spec x Hx) as [Hl _].
  destruct (qlog2_spec y) as [_ Hu]; [lra |].
  assert (2 ^ qlog2 x < 2 ^ (qlog2 y + 1)) as ?%pow2_lt_inv by lra.
  lia.
Qed.

(** The scaled significand lies between [2^52] and [2^53]. *)
Lemma significand_bounds x :
  0 < x ->
  (2 ^ 52 <= rne (x / 2 ^ (qlog2 x - 52)) <= 2 ^ 53)%Z.
Proof.
  intros Hx. destruct (qlog2_spec x Hx) as [Hl Hu].
  pose proof (pow2_pos (qlog2 x - 52)) as Hp.
  assert (Hs : 2 ^ qlog2 x == 2 ^ 52 * 2 ^ (qlog2 x - 52)).
  { rewrite <- pow2_plus. replace (52 + (qlog2 x - 52))%Z with (qlog2 x) by lia. reflexivity. }
  assert (Hs' : 2 ^ (qlog2 x + 1) == 2 ^ 53 * 2 ^ (qlog2 x - 52)).
  { rewrite <- pow2_plus. replace (53 + (qlog2 x - 52))%Z with (qlog2 x + 1)%Z by lia. reflexivity. }
  split.
  - rewrite <- (rne_Z (2 ^ 52)). apply rne_mono.
    apply Qle_shift_div_l; [exact Hp |].
    change (inject_Z (2 ^ 52)) with (2 ^ 52). rewrite <- Hs. exact Hl.
  - rewrite <- (rne_Z (2 ^ 53)). apply rne_mono.
    apply Qle_shift_div_r; [exact Hp |].
    change (inject_Z (2 ^ 53)) with (2 ^ 53). rewrite <- Hs'. lra.
Qed.

Lemma round53_pos_bounds x :
  0 < x -> 2 ^ qlog2 x <= round53_pos x /\ round53_pos x <= 2 ^ (qlog2 x + 1).
Proof.
  intros Hx. unfold round53_pos.
  destruct (significand_bounds x Hx) as [Hm1 Hm2].
  pose proof (pow2_pos (qlog2 x - 52)) as Hp.
  rewrite Zle_Qle in Hm1, Hm2.
  change (inject_Z (2 ^ 52)) with (2 ^ 52) in Hm1.
  change (inject_Z (2 ^ 53)) with (2 ^ 53) in Hm2.
  assert (Hs : 2 ^ qlog2 x == 2 ^ 52 * 2 ^ (qlog2 x - 52)).
  { rewrite <- pow2_plus. replace (52 + (qlog2 x - 52))%Z with (qlog2 x) by lia. reflexivity. }
  assert (Hs' : 2 ^ (qlog2 x + 1) == 2 ^ 53 * 2 ^ (qlog2 x - 52)).
  { rewrite <- pow2_plus. replace (53 + (qlog2 x - 52))%Z with (qlog2 x + 1)%Z by lia. reflexivity. }
  rewrite Hs, Hs'. split; apply Qmult_le_compat_r; lra.
Qed.

Lemma round53_pos_mono x y : 0 < x -> x <= y -> round53_pos x <= round53_pos y.
Proof.
  intros Hx Hxy. assert (Hy : 0 < y) by lra.
  pose proof (qlog2_mono x y Hx Hxy) as He.
  destruct (Z.eq_dec (qlog2 x) (qlog2 y)) as [Heq | Hne].
  - unfold round53_pos. rewrite <- Heq.
    pose proof (pow2_pos (qlog2 x - 52)) as Hp.
    apply Qmult_le_compat_r; [| lra].
    rewrite <- Zle_Qle. apply rne_mono.
    apply Qmult_le_compat_r; [exact Hxy |].
    apply Qlt_le_weak, Qinv_lt_0_compat, Hp.
  - destruct (round53_pos_bounds x Hx) as [_ Hux].
    destruct (round53_pos_bounds y Hy) as [Hly _].
    assert (2 ^ (qlog2 x + 1) <= 2 ^ qlog2 y) by (apply pow2_le; lia).
    lra.
Qed.

Lemma round53_nonneg_cases x :
  0 <= x -> (x == 0 /\ round53 x == 0) \/ (0 < x /\ round53 x == round53_pos x).
Proof.
  intros Hx. unfold round53. rewrite Qred_correct.
  destruct (Qcompare x 0) eqn:Hc; qcmp.
  - left. split; [exact Hc | reflexivity].
  - lra.
  - right. split; [exact Hc | reflexivity].
Qed.

(** Rounding is monotone. *)
Lemma round53_mono x y : 0 <= x -> x <= y -> round53 x <= round53 y.
Proof.
  intros Hx Hxy.
  destruct (round53_nonneg_cases x Hx) as [[Hx0 ->] | [Hx0 ->]];
  (destruct (round53_nonneg_cases y) as [[Hy0 ->] | [Hy0 ->]]; [lra | | ]); try lra.
  - destruct (round53_pos_bounds y Hy0) as [Hl _].
    pose proof (pow2_pos (qlog2 y)). lra.
  - by apply round53_pos_mono.
Qed.

Lemma round53_nonneg x : 0 <= x -> 0 <= round53 x.
Proof.
  intros Hx. assert (H0 : round53 0 == 0) by reflexivity.
  rewrite <- H0. apply round53_mono; lra.
Qed.

Lemma round53_proper x y : 0 <= x -> x == y -> round53 x == round53 y.
Proof.
  intros Hx Hxy. apply Qle_antisym; apply round53_mono; lra.
Qed.

(** On every batch of up to 32 rows, and of 100 and of 160 rows, the model
    computes the value that binary64 division and multiplication give. *)
Example percent_agrees_with_binary64 :
  forallb (fun total =>
      forallb (fun count =>
          Qeq_bool (b64_value (b64_percent count total)) (percent count total))
        (seq 0 (S total)))
    (seq 1 32 ++ [100; 160]%nat) = true.
Proof. vm_compute. reflexivity. Qed.
End Rounding.

(** ** Progress reports (C6) *)

Section Progress.
Import Float.

Lemma truediv_mono a b n :
  (0 <= a)%Z -> (a <= b)%Z -> (0 < n)%Z ->
  (0 <= truediv a n /\ truediv a n <= truediv b n)%Q.
Proof.
  intros Ha Hab Hn. unfold truediv.
  assert (Hn' : (0 < inject_Z n)%Q) by (change 0%Q with (inject_Z 0); by rewrite <- Zlt_Qlt).
  assert (Ha' : (0 <= inject_Z a / inject_Z n)%Q).
  { apply Qle_shift_div_l; [exact Hn' |]. rewrite Qmult_0_l.
    change 0%Q with (inject_Z 0). by rewrite <- Zle_Qle. }
  split; [by apply round53_nonneg |].
  apply round53_mono; [exact Ha' |].
  apply Qmult_le_compat_r; [by rewrite <- Zle_Qle |].
  apply Qlt_le_weak, Qinv_lt_0_compat, Hn'.
Qed.


End Progress.

Section ProgressLog.
Context (U : UCD) (self : matcher).

Lemma reportable_RangeIndex n : reportable RangeIndex n.
Proof. intros i _. eexists. reflexivity. Qed.

Lemma calls_of_events total rows :
  calls_of (flat_map (row_events U self true RangeIndex total) rows)
    = List.map (fun ic => progress_value (fst ic) total) rows.
Proof. induction rows as [| ic rows IH]; [done |]. cbn. by rewrite <- IH. Qed.

Lemma fst_enumerate_from {A} (l : list A) k :
  List.map fst (List.combine (seq k (length l)) l) = seq k (length l).
Proof. revert k. induction l as [| x l IH]; intros k; cbn; [done |]. by rewrite IH. Qed.

Lemma range_calls rows :
  calls_of (flat_map (row_events U self true RangeIndex (length rows)) (enumerate rows))
    = List.map (fun k => progress_value k (length rows)) (seq 0 (length rows)).
Proof.
  rewrite calls_of_events.
  rewrite <- (List.map_map fst (fun k => progress_value k _)).
  unfold enumerate. by rewrite fst_enumerate_from.
Qed.

Lemma process_file_calls df :
  succeeds (process_file U self RangeIndex df true) (fun out =>
    calls_of (log out)
      = List.map (fun k => progress_value k (length (apply_rank_limit self df)))
          (seq 0 (length (apply_rank_limit self df)))).
Proof.
  rewrite process_file_success by (intros _; apply reportable_RangeIndex).
  cbn [succeeds log]. apply range_calls.
Qed.
End ProgressLog.




(** ** Coverage statistics (C9) *)

Section Coverage.
Context (U : UCD).

Lemma index_add_nonempty index iw :
  entries_nonempty index -> entries_nonempty (index_add U index iw).
Proof.
  intros Hinv k b. destruct iw as [i word]. unfold index_add.
  destruct (strQ2B _) as [| c w] eqn:Hw; [apply Hinv |].
  set (first := match split U (c :: w) with f :: _ => f | [] => c :: w end).
  destruct (decide (first = k)) as [<- | Hne].
  - rewrite lookup_insert_eq. intros [= <-].
    apply Forall_app. split; [| by repeat constructor].
    destruct (index !! first) as [b0 |] eqn:Hb0; cbn [default]; [| constructor].
    by apply (Hinv first).
  - rewrite lookup_insert_ne by done. apply Hinv.
Qed.

Lemma build_index_nonempty word_list : entries_nonempty (_build_index U word_list).
Proof.
  unfold _build_index.
  assert (Hraw : entries_nonempty (fold_left (index_add U) (enumerate word_list) ∅)).
  { generalize (enumerate word_list) as l.
    assert (H0 : entries_nonempty ∅) by (intros k b Hb; by rewrite lookup_empty in Hb).
    revert H0. generalize (∅ : gmap ustring (list entry)) as index.
    intros index H0 l. revert index H0.
    induction l as [| iw l IH]; intros index H0; [done |].
    cbn. apply IH. by apply index_add_nonempty. }
  intros k b. rewrite lookup_fmap.
  destruct (fold_left _ _ _ !! k) as [raw |] eqn:Hk; [| discriminate].
  intros [= <-]. apply Forall_sort_desc. by apply (Hraw k).
Qed.

Lemma try_candidates_elem words i word cands kw :
  try_candidates U words i word cands = Some kw -> exists row, (kw, row) ∈ cands.
Proof.
  induction cands as [| [kw' row] cands IH]; [discriminate |].
  cbn. destruct (fits U words i word kw').
  - intros [= <-]. exists row. apply list_elem_of_here.
  - intros H. destruct (IH H) as [r Hr]. exists r. by apply list_elem_of_further.
Qed.

Lemma match_from_index_nonempty phrase index used :
  entries_nonempty index ->
  Forall (fun k => match_text k <> []) (fst (match_from_index U phrase index used)).
Proof.
  intros Hinv. unfold match_from_index.
  generalize (enumerate (split U phrase)) as l.
  assert (H0 : Forall (fun k => match_text k <> []) (fst (([] : list match_t), used)))
    by constructor.
  revert H0. generalize (([] : list match_t), used) as st.
  intros st H0 l. revert st H0.
  induction l as [| [i word] l IH]; intros st H0; [done |].
  cbn [fold_left]. apply IH.
  destruct st as [matches used']. unfold match_step.
  destruct (bool_decide _); [done |].
  destruct (index !! word) as [cands |] eqn:Hc; [| done].
  destruct (try_candidates U (split U phrase) i word cands) as [kw |] eqn:Ht; [| done].
  cbn [fst] in *. apply Forall_app. split; [done |].
  repeat constructor. unfold match_of, match_text; cbn [fst].
  destruct (try_candidates_elem _ _ _ _ _ Ht) as [row Hrow].
  specialize (Hinv word cands Hc). rewrite Forall_forall in Hinv.
  by apply (Hinv (kw, row)).
Qed.

(** The three fields the statistics read, as single passes. *)
Lemma match_fields_passes self cleaned :
  let first_pass := match_from_index U cleaned (keyword_index self) ∅ in
  exists used2,
    m_keywords (match_fields U self cleaned) = fst first_pass /\
    m_brands (match_fields U self cleaned)
      = fst (match_from_index U cleaned (brand_index self) (snd first_pass)) /\
    m_types (match_fields U self cleaned)
      = fst (match_from_index U cleaned (type_index self) used2).
Proof.
  unfold match_fields.
  destruct (match_from_index U cleaned (keyword_index self) ∅) as [k u1].
  destruct (match_from_index U cleaned (brand_index self) u1) as [b u2] eqn:Hb.
  destruct (match_from_index U cleaned (type_index self) u2) as [t u3] eqn:Ht.
  destruct (match_from_index U cleaned (size_index self) u3) as [s u4].
  destruct (match_from_index U cleaned (age_index self) u4) as [a u5].
  destruct (match_from_index U cleaned (gender_index self) u5) as [g u6].
  exists u2. cbn. by rewrite Hb, Ht.
Qed.

(** Field priority, as far as it goes: no Brand match starts at a position
    that the Keyword pass claimed. *)
Lemma brand_matches_start_free self cleaned :
  Forall (fun k => snd (fst k) ∉ snd (match_from_index U cleaned (keyword_index self) ∅))
    (m_brands (match_fields U self cleaned)).
Proof.
  destruct (match_fields_passes self cleaned) as (used2 & _ & -> & _).
  apply match_from_index_starts_free.
Qed.

Lemma loaded_indexes stop rl table self :
  _load_keyword_database U stop rl table = Ok self ->
  entries_nonempty (keyword_index self) /\
  entries_nonempty (brand_index self) /\
  entries_nonempty (type_index self).
Proof.
  unfold _load_keyword_database.
  destruct (List.map _ table); [discriminate |].
  repeat match goal with
         | |- mbind _ ?r = _ -> _ => destruct r; cbn [mbind result_bind]; [| discriminate]
         end.
  intros [= <-]; cbn. repeat split; apply build_index_nonempty.
Qed.

Lemma join_nonempty sep l :
  Forall (fun w : ustring => w <> []) l -> nonempty (join sep l) = nonempty l.
Proof.
  destruct 1 as [| w l Hw Hl]; [done |].
  destruct w as [| c w]; [done |]. by destruct l.
Qed.

Lemma Forall_map_match_text l :
  Forall (fun k => match_text k <> []) l ->
  Forall (fun w : ustring => w <> []) (List.map match_text l).
Proof. intros H. by apply List.Forall_map. Qed.

Lemma extract_all_nonempty self phrase :
  entries_nonempty (keyword_index self) ->
  entries_nonempty (brand_index self) ->
  entries_nonempty (type_index self) ->
  let e := extract_all U self phrase in
  Forall (fun w => w <> []) (keywords e) /\
  Forall (fun w => w <> []) (brands e) /\
  Forall (fun w => w <> []) (types e).
Proof.
  intros Hk Hb Ht. unfold extract_all.
  destruct (clean_phrase U (stopwords self) phrase) as [| c cleaned];
    [repeat split; constructor |].
  destruct (match_fields_passes self (c :: cleaned)) as (u2 & H1 & H2 & H3).
  generalize dependent (c :: cleaned). intros cl H1 H2 H3.
  cbn [keywords brands types]. rewrite H1, H2, H3.
  repeat split; apply Forall_map_match_text;
    by apply match_from_index_nonempty.
Qed.

Lemma truthy_nonempty (s : ustring) : truthy s = nonempty s.
Proof. by destruct s. Qed.

Lemma filter_map_length {A B} (f : B -> bool) (g : A -> B) l :
  length (List.filter f (List.map g l)) = length (List.filter (fun x => f (g x)) l).
Proof.
  induction l as [| x l IH]; [done |].
  cbn. destruct (f (g x)); cbn; by rewrite IH.
Qed.

Lemma coverage_matched self (field : extraction -> list ustring)
    (column : result_row -> ustring) rows :
  (forall cell, column (result_row_of U self cell)
                = join comma_space (field (extract_all U self (default [] cell)))) ->
  (forall phrase, Forall (fun w => w <> []) (field (extract_all U self phrase))) ->
  (0 < length rows)%nat ->
  coverage column (List.map (result_row_of U self) rows)
    = percent (matched_rows U self field rows) (length rows).
Proof.
  intros Hcol Hne Hpos. unfold coverage, percent, matched_rows.
  rewrite length_map.
  destruct (Nat.ltb_spec 0 (length rows)) as [_ | ?]; [| lia].
  rewrite filter_map_length.
  do 4 f_equal. apply List.filter_ext. intros cell.
  by rewrite truthy_nonempty, Hcol, join_nonempty.
Qed.
End Coverage.

(** C9 (as amended). With a loaded matcher, a run whose progress report
    raises nothing succeeds, and the keyword, brand and type coverage of
    the batch is [round(count / total * 100, 2)] as binary64
    arithmetic evaluates it, where [count] is the number of processed rows
    whose matched sequence for the field is not empty and [total] the
    number of processed rows; for 4 rows of which 3 have a keyword match
    the keyword coverage is 75.0. *)
Theorem coverage_statistics (U : UCD) (table : frame) (options : options_t)
    (self : matcher) (index : row_index) (df : list (option ustring))
    (progress_callback : bool) :
  WebKeywordMatcher U table options = Ok self ->
  let rows := apply_rank_limit self df in
  (0 < length rows)%nat ->
  (progress_callback = true -> reportable index (length rows)) ->
  succeeds (process_file U self index df progress_callback) (fun out =>
    let st := stats out in
    total_phrases st = length rows /\
    keyword_coverage st
      = Float.round2 (percent (matched_rows U self keywords rows) (length rows)) /\
    brand_coverage st
      = Float.round2 (percent (matched_rows U self brands rows) (length rows)) /\
    type_coverage st
      = Float.round2 (percent (matched_rows U self types rows) (length rows)) /\
    (length rows = 4%nat -> matched_rows U self keywords rows = 3%nat ->
     keyword_coverage st = 75%Q)).
Proof.
  intros Hload rows Hpos Hok.
  rewrite process_file_success by done. cbn [succeeds stats]. fold rows.
  set (st := _generate_statistics (List.map (result_row_of U self) rows)).
  assert (Hidx : entries_nonempty (keyword_index self) /\
                 entries_nonempty (brand_index self) /\
                 entries_nonempty (type_index self)).
  { unfold WebKeywordMatcher in Hload.
    destruct (_parse_rank_limit U options) as [rl |]; [| discriminate].
    by eapply loaded_indexes. }
  destruct Hidx as (Hk & Hb & Ht).
  assert (Hst : st = _generate_statistics (List.map (result_row_of U self) rows))
    by reflexivity.
  clearbody st.
  assert (Hcov : forall field column,
            (forall cell, column (result_row_of U self cell)
               = join comma_space (field (extract_all U self (default [] cell)))) ->
            (forall phrase, Forall (fun w => w <> []) (field (extract_all U self phrase))) ->
            Float.round2 (coverage column (List.map (result_row_of U self) rows))
            = Float.round2 (percent (matched_rows U self field rows) (length rows))).
  { intros field column Hcol Hne. f_equal. by apply coverage_matched. }
  assert (Hkc : keyword_coverage st
    = Float.round2 (percent (matched_rows U self keywords rows) (length rows))).
  { rewrite Hst. cbn [_generate_statistics keyword_coverage].
    apply Hcov; [done |]. intros phrase. by apply extract_all_nonempty. }
  split; [rewrite Hst; cbn [_generate_statistics total_phrases]; by rewrite length_map |].
  split; [exact Hkc |].
  split; [| split].
  - rewrite Hst. cbn [_generate_statistics brand_coverage].
    apply Hcov; [done |]. intros phrase. by apply extract_all_nonempty.
  - rewrite Hst. cbn [_generate_statistics type_coverage].
    apply Hcov; [done |]. intros phrase. by apply extract_all_nonempty.
  - intros H4 H3. rewrite Hkc, H4, H3. by vm_compute.
Qed.

Lemma coverage_statistics_witness :
  let df := [Some (u "red shoe"); Some (u "socks"); Some (u "running shoe");
             Some (u "Shoe, size 9")] in
  succeeds (process_file ucd_basic shoe_matcher RangeIndex df false) (fun out =>
    keyword_coverage (stats out) = 75%Q).
Proof.
  intros df.
  assert (Hrows : (0 < length (apply_rank_limit shoe_matcher df))%nat) by (vm_compute; lia).
  assert (Hquiet : false = true ->
                   reportable RangeIndex (length (apply_rank_limit shoe_matcher df)))
    by discriminate.
  pose proof (coverage_statistics ucd_basic shoe_table blank_options shoe_matcher
                RangeIndex df false shoe_matcher_loaded Hrows Hquiet) as Hcov.
  destruct (process_file ucd_basic shoe_matcher RangeIndex df false) as [out | e l];
    [| exact Hcov].
  destruct Hcov as (_ & _ & _ & _ & H75).
  apply H75; vm_compute; reflexivity.
Defined.

(** C9 fails as stated: for 160 rows of which 23 have a keyword match the
    exact percentage is 14.375, which rounds to 14.38 (ties to even, and
    ties away from zero as well); the code returns the float 14.37. *)
Lemma coverage_not_exact_rounding :
  let df := repeat (Some (u "shoe")) 23 ++ repeat (Some (u "sock")) 137 in
  matched_rows ucd_basic shoe_matcher keywords df = 23%nat /\
  Float.rne ((23 # 160) * 100 * 100) = 1438 /\
  Qfloor ((23 # 160) * 100 * 100 + (1 # 2)) = 1438 /\
  succeeds (process_file ucd_basic shoe_matcher RangeIndex df false) (fun out =>
    keyword_coverage (stats out) = Float.round53 (1437 # 100) /\
    keyword_coverage (stats out) <> Float.round53 (1438 # 100)).
Proof. vm_compute. repeat split; try reflexivity; discriminate. Qed.

(** * Further properties *)

(** ** Width folding and cleaning *)

(** X1. [strQ2B] keeps the length, leaves no code point that it would
    rewrite, and is idempotent. *)
Theorem strQ2B_idempotent (s : ustring) :
  length (strQ2B s) = length s /\
  Forall (fun c => fold_range c = false) (strQ2B s) /\
  strQ2B (strQ2B s) = strQ2B s.
Proof.
  split; [apply length_map |].
  split; [apply strQ2B_no_fold |].
  apply strQ2B_fixed, strQ2B_no_fold.
Qed.

(** X2. Cleaning does not tell a phrase from its half-width form. *)
Theorem clean_phrase_width_blind (U : UCD) (stop : gset ustring) (x : ustring) :
  clean_phrase U stop (strQ2B x) = clean_phrase U stop x.
Proof.
  rewrite !clean_phrase_body.
  by rewrite (strQ2B_fixed (strQ2B x)) by apply strQ2B_no_fold.
Qed.

Lemma Forall_filter_keep {A} (f : A -> bool) l :
  Forall (fun x => f x = true) (List.filter f l).
Proof.
  induction l as [| x l IH]; [constructor |].
  cbn. destruct (f x) eqn:Hf; [by constructor | done].
Qed.

(** X3. The cleaned phrase is its words joined by single spaces: splitting
    it gives back exactly the words kept, none of them a stop word, none
    shorter than two code points. *)
Theorem clean_phrase_words (U : UCD) (stop : gset ustring) (x : ustring) :
  UCD_ok U ->
  let words := split U (clean_phrase U stop x) in
  clean_phrase U stop x = join [32] words /\
  words = List.filter (keep_word stop)
            (split U (lower U (re_sub_space U (strQ2B x)))) /\
  Forall (fun w => (w ∉ stop) /\ (1 < length w)%nat /\ token U w) words.
Proof.
  intros HU words. subst words. rewrite clean_phrase_body.
  set (fs := List.filter (keep_word stop) _).
  assert (Htok : Forall (token U) fs).
  { apply Forall_filter_bool.
    eapply Forall_impl; [apply (split_tokens U (fun _ => True)), Forall_true |]; [done |].
    by intros w [Hw _]. }
  rewrite (split_join U HU fs Htok).
  split; [done |]. split; [done |].
  pose proof (Forall_filter_keep (keep_word stop)
                (split U (lower U (re_sub_space U (strQ2B x))))) as Hkeep.
  fold fs in Hkeep.
  rewrite Forall_forall in Htok, Hkeep |- *. intros w Hw.
  specialize (Hkeep w Hw). unfold keep_word in Hkeep.
  apply andb_true_iff in Hkeep as [Hs Hl].
  apply negb_true_iff, bool_decide_eq_false in Hs.
  apply Nat.ltb_lt in Hl. auto.
Qed.

Lemma clean_phrase_words_witness :
  split ucd_basic (clean_phrase ucd_basic DEFAULT_STOPWORDS (u "the quick a fox"))
    = [u "quick"; u "fox"] /\
  clean_phrase ucd_basic DEFAULT_STOPWORDS (u "the quick a fox")
    = join [32] (split ucd_basic
                   (clean_phrase ucd_basic DEFAULT_STOPWORDS (u "the quick a fox"))).
Proof.
  split; [vm_compute; reflexivity |].
  apply (clean_phrase_words ucd_basic DEFAULT_STOPWORDS (u "the quick a fox") ucd_basic_ok).
Defined.

(** ** The stop-word set *)

(** X4. The stop-word set of a matcher is the default set plus the
    lowercased, stripped, non-blank pieces of the comma-separated option,
    and nothing else. *)
Theorem get_stopwords_elements (U : UCD) (options : options_t) (w : ustring) :
  w ∈ _get_stopwords U options <->
  w ∈ DEFAULT_STOPWORDS \/
  exists custom piece,
    opt_custom_stopwords options = Some custom /\
    In piece (split_on 44 custom) /\ strip U piece <> [] /\
    w = lower U (strip U piece).
Proof.
  unfold _get_stopwords.
  destruct (opt_custom_stopwords options) as [[| c custom] |] eqn:Hopt.
  - split; [by left |]. intros [H | (cu & piece & [= <-] & Hin & Hne & _)]; [done |].
    cbn in Hin. destruct Hin as [<- | []]. by destruct Hne.
  - rewrite elem_of_union, elem_of_list_to_set, list_elem_of_In, in_map_iff.
    split.
    + intros [H | (piece & <- & Hin)]; [by left | right].
      apply filter_In in Hin as [Hin Hne].
      exists (c :: custom), piece.
      split; [done |]. split; [done |]. split; [by destruct (strip U piece) | done].
    + intros [H | (cu & piece & [= <-] & Hin & Hne & ->)]; [by left | right].
      exists piece. split; [done |]. apply filter_In. split; [done |].
      by destruct (strip U piece).
  - split; [by left |]. by intros [H | (cu & piece & [=] & _)].
Qed.

(** ** The index *)

Section IndexEntries.
Context (U : UCD).

Lemma elem_of_insert_desc x y l : x ∈ insert_desc U y l <-> x = y \/ x ∈ l.
Proof.
  induction l as [| z l IH]; cbn.
  - rewrite list_elem_of_singleton, elem_of_nil. tauto.
  - destruct (key_le _ _).
    + by rewrite elem_of_cons.
    + rewrite !elem_of_cons, IH. tauto.
Qed.

Lemma elem_of_sort_desc x l : x ∈ sort_desc U l <-> x ∈ l.
Proof.
  induction l as [| y l IH]; [done |].
  cbn. by rewrite elem_of_insert_desc, elem_of_cons, IH.
Qed.

Lemma index_add_entries index n word k w i :
  (w, i) ∈ default ([] : list entry) (index_add U index (n, word) !! k) <->
  (w, i) ∈ default ([] : list entry) (index !! k) \/
  (i = n /\ w = normalized U word /\ w <> [] /\ first_token U w = k).
Proof.
  unfold index_add. fold (normalized U word).
  destruct (normalized U word) as [| c v] eqn:Hw.
  - split; [by left |]. intros [H | (_ & -> & Hne & _)]; [done | by destruct Hne].
  - fold (first_token U (c :: v)).
    destruct (decide (first_token U (c :: v) = k)) as [<- | Hne].
    + rewrite lookup_insert_eq. cbn [default from_option id].
      rewrite elem_of_app, list_elem_of_singleton. split.
      * intros [H | [= -> ->]]; [by left | by right].
      * intros [H | (-> & -> & _ & _)]; [by left | by right].
    + rewrite lookup_insert_ne by done. split; [by left |].
      intros [H | (_ & -> & _ & Hk)]; [done | by destruct Hne].
Qed.

Lemma fold_index_add_entries l n index k w i :
  (w, i) ∈ default ([] : list entry) (fold_left (index_add U) (List.combine (seq n (length l)) l) index !! k)
  <->
  (w, i) ∈ default ([] : list entry) (index !! k) \/
  (exists word, (n <= i)%nat /\ l !! (i - n)%nat = Some word /\
     w = normalized U word /\ w <> [] /\ first_token U w = k).
Proof.
  revert n index. induction l as [| word l IH]; intros n index; cbn [length seq List.combine fold_left].
  - split; [by left |]. by intros [H | (word & _ & Hl & _)].
  - rewrite IH, index_add_entries. split.
    + intros [[H | (-> & Hw)] | (wd & Hn & Hl & Hw)].
      * by left.
      * right. exists word. split; [lia |]. by rewrite Nat.sub_diag.
      * right. exists wd. split; [lia |].
        replace (i - n)%nat with (S (i - S n)) by lia. done.
    + intros [H | (wd & Hn & Hl & Hw)]; [by left; left |].
      destruct (decide (i = n)) as [-> | Hne].
      * rewrite Nat.sub_diag in Hl. injection Hl as <-. left. by right.
      * right. exists wd. split; [lia |].
        replace (i - n)%nat with (S (i - S n)) in Hl by lia. done.
Qed.

Lemma index_add_buckets index iw :
  (forall k b, index !! k = Some b -> b <> []) ->
  forall k b, index_add U index iw !! k = Some b -> b <> [].
Proof.
  intros Hinv k b. destruct iw as [i word]. unfold index_add.
  destruct (strQ2B _) as [| c w]; [apply Hinv |].
  set (first := match split U (c :: w) with f :: _ => f | [] => c :: w end).
  destruct (decide (first = k)) as [<- | Hne].
  - rewrite lookup_insert_eq. intros [= <-]. by destruct (default [] _).
  - rewrite lookup_insert_ne by done. apply Hinv.
Qed.

Lemma build_index_buckets word_list k b :
  _build_index U word_list !! k = Some b -> b <> [].
Proof.
  unfold _build_index. rewrite lookup_fmap.
  destruct (fold_left _ _ _ !! k) as [raw |] eqn:Hraw; [| discriminate].
  intros [= <-].
  assert (Hne : raw <> []).
  { revert Hraw. generalize (enumerate word_list) as l.
    assert (H0 : forall k b, (∅ : gmap ustring (list entry)) !! k = Some b -> b <> [])
      by (intros ? ? H; by rewrite lookup_empty in H).
    revert H0. generalize (∅ : gmap ustring (list entry)) as index.
    intros index H0 l. revert index H0.
    induction l as [| iw l IH]; intros index H0; cbn; [apply H0 |].
    apply IH. by apply index_add_buckets. }
  destruct raw as [| x raw]; [done |]. intros Hs.
  assert (Hx : x ∈ sort_desc U (x :: raw)) by (apply elem_of_sort_desc, list_elem_of_here).
  rewrite Hs in Hx. by apply elem_of_nil in Hx.
Qed.
End IndexEntries.

(** X5. The index holds, under the first token of its normalized value,
    each row whose normalized value is not empty, with its row number, and
    nothing else; a token is a key exactly when it is the first token of
    such a row. *)
Theorem build_index_entries (U : UCD) (word_list : list ustring)
    (k w : ustring) (i : nat) :
  ((w, i) ∈ default ([] : list entry) (_build_index U word_list !! k) <->
   exists word, word_list !! i = Some word /\
     w = normalized U word /\ w <> [] /\ first_token U w = k) /\
  (is_Some (_build_index U word_list !! k) <->
   exists j word, word_list !! j = Some word /\
     normalized U word <> [] /\ first_token U (normalized U word) = k).
Proof.
  assert (Hmem : forall w i,
    (w, i) ∈ default ([] : list entry) (_build_index U word_list !! k) <->
    exists word, word_list !! i = Some word /\
      w = normalized U word /\ w <> [] /\ first_token U w = k).
  { clear w i. intros w i. unfold _build_index, enumerate. rewrite lookup_fmap.
    transitivity ((w, i) ∈ default []
      (fold_left (index_add U) (List.combine (seq 0 (length word_list)) word_list) ∅ !! k)).
    { destruct (fold_left _ _ _ !! k) as [raw |]; cbn; [apply elem_of_sort_desc | done]. }
    rewrite fold_index_add_entries, lookup_empty. cbn. rewrite elem_of_nil.
    split.
    - intros [[] | (word & _ & Hl & Hw)]. exists word. by rewrite Nat.sub_0_r in Hl.
    - intros (word & Hl & Hw). right. exists word. split; [lia |].
      by rewrite Nat.sub_0_r. }
  split; [apply Hmem |]. split.
  - intros [b Hb]. pose proof (build_index_buckets U _ _ _ Hb) as Hne.
    destruct b as [| [w0 i0] b]; [done |].
    assert (Hin : (w0, i0) ∈ default ([] : list entry) (_build_index U word_list !! k))
      by (rewrite Hb; apply list_elem_of_here).
    apply Hmem in Hin as (word & Hl & -> & Hw & Hk).
    by exists i0, word.
  - intros (j & word & Hl & Hne & Hk).
    assert (Hin : (normalized U word, j) ∈ default ([] : list entry) (_build_index U word_list !! k)).
    { apply Hmem. by exists word. }
    destruct (_build_index U word_list !! k); [done |].
    by apply elem_of_nil in Hin.
Qed.

(** ** One matching pass *)

Section Pass.
Context (U : UCD).

(** Loops over [enumerate(l)] keep an invariant indexed by the position
    reached. *)
Lemma fold_enumerate_ind {A St} (f : St -> nat * A -> St) (P : nat -> St -> Prop)
    (l : list A) (s0 : St) :
  P 0%nat s0 ->
  (forall n s x, l !! n = Some x -> P n s -> P (S n) (f s (n, x))) ->
  P (length l) (fold_left f (enumerate l) s0).
Proof.
  intros H0 Hstep. unfold enumerate.
  assert (Hgen : forall suf pre s, l = pre ++ suf -> P (length pre) s ->
            P (length l)
              (fold_left f (List.combine (seq (length pre) (length suf)) suf) s)).
  { induction suf as [| x suf IH]; intros pre s Hl Hs.
    - rewrite Hl, app_nil_r. exact Hs.
    - cbn [length seq List.combine fold_left].
      specialize (IH (pre ++ [x]) (f s (length pre, x))).
      rewrite length_app in IH. cbn [length] in IH.
      rewrite Nat.add_1_r in IH. apply IH.
      + by rewrite <- app_assoc.
      + apply Hstep; [| exact Hs].
        rewrite Hl. by rewrite list_lookup_middle. }
  apply (Hgen l [] s0); done.
Qed.

Lemma try_candidates_fits words i word cands kw :
  try_candidates U words i word cands = Some kw ->
  fits U words i word kw = true /\ exists row, (kw, row) ∈ cands.
Proof.
  induction cands as [| [kw' row] cands IH]; [discriminate |].
  cbn. destruct (fits U words i word kw') eqn:Hfit.
  - intros [= <-]. split; [done |]. exists row. apply list_elem_of_here.
  - intros H. destruct (IH H) as [Hf [r Hr]]. split; [done |].
    exists r. by apply list_elem_of_further.
Qed.

(** The two outcomes of one step of the scan. *)
Lemma match_step_cases index words matches used i word :
  match_step U index words (matches, used) (i, word) = (matches, used) \/
  exists kw cands row,
    (i ∉ used) /\ index !! word = Some cands /\ (kw, row) ∈ cands /\
    fits U words i word kw = true /\
    match_step U index words (matches, used) (i, word)
      = (matches ++ [match_of U i kw], used ∪ list_to_set (claimed U i kw)).
Proof.
  unfold match_step.
  destruct (bool_decide (i ∈ used)) eqn:Hi; [by left |].
  apply bool_decide_eq_false in Hi.
  destruct (index !! word) as [cands |] eqn:Hc; [| by left].
  destruct (try_candidates U words i word cands) as [kw |] eqn:Ht; [| by left].
  destruct (try_candidates_fits _ _ _ _ _ Ht) as [Hfit [row Hrow]].
  right. by exists kw, cands, row.
Qed.

Lemma covers_match_of i kw j :
  covers j (match_of U i kw) = true <-> j ∈ claimed U i kw \/
    (length (split U kw) = 1%nat /\ False).
Proof.
  unfold covers, match_of, claimed; cbn [fst snd].
  rewrite andb_true_iff, Nat.leb_le, Z.leb_le.
  destruct (Nat.eqb_spec (length (split U kw)) 1) as [-> | Hne].
  - rewrite list_elem_of_singleton. lia.
  - rewrite elem_of_seq. lia.
Qed.

Lemma covers_claimed i kw j :
  covers j (match_of U i kw) = true <-> j ∈ claimed U i kw.
Proof. rewrite covers_match_of. tauto. Qed.

Lemma fits_sound words i word kw :
  words !! i = Some word -> fits U words i word kw = true ->
  sound_match U words (match_of U i kw).
Proof.
  intros Hw. unfold fits, sound_match, match_of, match_text, match_start, match_end.
  cbn [fst snd].
  destruct (Nat.eqb_spec (length (split U kw)) 1) as [-> | Hne].
  - intros <-%bool_decide_eq_true.
    pose proof (lookup_lt_Some _ _ _ Hw) as Hlt.
    split; [lia |]. split; [lia |].
    rewrite (drop_S _ _ _ Hw). cbn. by rewrite take_0.
  - intros [Hlen Hj%bool_decide_eq_true]%andb_true_iff.
    apply Nat.leb_le in Hlen. split; [lia |]. by split.
Qed.

Lemma match_step_inv index words used0 n st word :
  words !! n = Some word ->
  pass_inv U words used0 n st ->
  pass_inv U words used0 (S n) (match_step U index words st (n, word)).
Proof.
  intros Hw (Hsound & Hstart & Hsorted & Hused). destruct st as [matches used].
  cbn [fst snd] in *.
  destruct (match_step_cases index words matches used n word)
    as [-> | (kw & cands & row & Hfree & _ & _ & Hfit & ->)]; cbn [fst snd].
  - split; [done |]. split; [| split; [done | exact Hused]].
    eapply Forall_impl; [exact Hstart |]. cbn. intros k [? ?]. split; [lia | done].
  - assert (Hm : match_start (match_of U n kw) = n) by reflexivity.
    split; [| split; [| split]].
    + apply Forall_app. split; [done |]. constructor; [| constructor].
      by eapply fits_sound.
    + apply Forall_app. split.
      * eapply Forall_impl; [exact Hstart |]. cbn. intros k [? ?]. split; [lia | done].
      * constructor; [| constructor]. split; [rewrite Hm; lia |].
        rewrite Hm. intros Hin. apply Hfree, Hused. by left.
    + apply StronglySorted_app. split; [| split; [done | repeat constructor]].
      intros a b Ha ->%list_elem_of_singleton. rewrite Hm.
      destruct (Z_lt_le_dec (match_end a) (Z.of_nat n)) as [Hlt | Hge]; [done |].
      exfalso. apply Hfree, Hused. right.
      apply existsb_exists. exists a. split; [by apply list_elem_of_In |].
      rewrite Forall_forall in Hstart. destruct (Hstart a Ha) as [Hsa _].
      unfold covers, match_start, match_end in *.
      apply andb_true_iff. rewrite Nat.leb_le, Z.leb_le. lia.
    + intros j. cbn [fst snd].
      rewrite elem_of_union, elem_of_list_to_set, Hused, existsb_app.
      cbn [existsb]. rewrite orb_false_r, orb_true_iff, covers_claimed. tauto.
Qed.

Lemma match_from_index_inv phrase index used0 :
  pass_inv U (split U phrase) used0 (length (split U phrase))
    (match_from_index U phrase index used0).
Proof.
  unfold match_from_index.
  apply (fold_enumerate_ind (match_step U index (split U phrase))
           (pass_inv U (split U phrase) used0)).
  - split; [constructor |]. split; [constructor |]. split; [constructor |].
    intros j. cbn. split; [tauto | intros [H | H]; [done | discriminate]].
  - intros n s x Hx Hs. by apply match_step_inv.
Qed.
End Pass.

(** X6. Every match a pass records is in the phrase: its span lies within
    the token sequence and the tokens of the span, joined by single
    spaces, are the recorded text. *)
Theorem pass_matches_sound (U : UCD) (phrase : ustring)
    (index : gmap ustring (list entry)) (used_positions : gset nat) :
  Forall (sound_match U (split U phrase))
    (fst (match_from_index U phrase index used_positions)).
Proof. apply match_from_index_inv. Qed.

(** X7. Within one pass the matches are recorded from left to right and
    do not overlap: each ends before the next starts. *)
Theorem pass_matches_ordered (U : UCD) (phrase : ustring)
    (index : gmap ustring (list entry)) (used_positions : gset nat) :
  StronglySorted (fun a b => match_end a < Z.of_nat (match_start b))
    (fst (match_from_index U phrase index used_positions)).
Proof. apply match_from_index_inv. Qed.

(** X8. The used set a pass returns is the set it was given plus exactly
    the positions its matches span, and these are positions of the
    phrase. *)
Theorem pass_used_positions (U : UCD) (phrase : ustring)
    (index : gmap ustring (list entry)) (used_positions : gset nat) (j : nat) :
  let out := match_from_index U phrase index used_positions in
  (j ∈ snd out <-> j ∈ used_positions \/ existsb (covers j) (fst out) = true) /\
  (existsb (covers j) (fst out) = true -> (j < length (split U phrase))%nat).
Proof.
  intros out.
  destruct (match_from_index_inv U phrase index used_positions)
    as (Hsound & _ & _ & Hused).
  split; [apply Hused |].
  intros (k & Hk & Hc)%existsb_exists.
  apply list_elem_of_In in Hk. rewrite Forall_forall in Hsound.
  destruct (Hsound k Hk) as (He & Hlen & _).
  unfold covers in Hc. apply andb_true_iff in Hc as [_ Hc%Z.leb_le].
  unfold match_end, match_start in *. lia.
Qed.

Section Fields.
Context (U : UCD).

Lemma pass_used phrase index used m used' j :
  match_from_index U phrase index used = (m, used') ->
  j ∈ used' <-> j ∈ used \/ existsb (covers j) m = true.
Proof.
  intros H. destruct (pass_used_positions U phrase index used j) as [Hj _].
  by rewrite H in Hj.
Qed.

(** The used set after the six passes is what their matches span. *)
Lemma match_fields_used self cleaned j :
  j ∈ m_used (match_fields U self cleaned) <->
  existsb (covers j) (all_matches (match_fields U self cleaned)) = true.
Proof.
  unfold match_fields, all_matches.
  destruct (match_from_index U cleaned (keyword_index self) ∅) as [k u1] eqn:H1.
  destruct (match_from_index U cleaned (brand_index self) u1) as [b u2] eqn:H2.
  destruct (match_from_index U cleaned (type_index self) u2) as [t u3] eqn:H3.
  destruct (match_from_index U cleaned (size_index self) u3) as [s u4] eqn:H4.
  destruct (match_from_index U cleaned (age_index self) u4) as [a u5] eqn:H5.
  destruct (match_from_index U cleaned (gender_index self) u5) as [g u6] eqn:H6.
  cbn [m_used m_keywords m_brands m_types m_sizes m_ages m_genders].
  rewrite (pass_used _ _ _ _ _ j H6), (pass_used _ _ _ _ _ j H5),
    (pass_used _ _ _ _ _ j H4), (pass_used _ _ _ _ _ j H3),
    (pass_used _ _ _ _ _ j H2), (pass_used _ _ _ _ _ j H1).
  rewrite !existsb_app, !orb_true_iff, elem_of_empty. tauto.
Qed.

Lemma match_from_index_no_key phrase index used :
  Forall (fun w => index !! w = None) (split U phrase) ->
  match_from_index U phrase index used = ([], used).
Proof.
  intros Hno. unfold match_from_index.
  pose proof (fold_enumerate_ind (match_step U index (split U phrase))
                (fun _ st => st = ([], used)) (split U phrase) ([], used)) as H.
  apply H; [done |]. intros n s x Hx ->.
  unfold match_step. destruct (bool_decide _); [done |].
  rewrite Forall_forall in Hno.
  by rewrite (Hno x (list_elem_of_lookup_2 _ _ _ Hx)).
Qed.

Lemma match_from_index_entries phrase index used :
  Forall (fun k => exists key cands row,
            index !! key = Some cands /\ (match_text k, row) ∈ cands)
    (fst (match_from_index U phrase index used)).
Proof.
  unfold match_from_index.
  apply (fold_enumerate_ind (match_step U index (split U phrase))
           (fun _ st => Forall (fun k => exists key cands row,
                          index !! key = Some cands /\ (match_text k, row) ∈ cands)
                          (fst st))); [constructor |].
  intros n [matches used'] word _ Hm. cbn [fst] in *.
  destruct (match_step_cases U index (split U phrase) matches used' n word)
    as [-> | (kw & cands & row & _ & Hc & Hin & _ & ->)]; [done |].
  cbn [fst]. apply Forall_app. split; [done |].
  constructor; [| constructor]. by exists word, cands, row.
Qed.

Lemma loaded_matcher stop rl table self :
  _load_keyword_database U stop rl table = Ok self ->
  stopwords self = stop /\ rank_limit self = rl /\
  keyword_index self = _build_index U (keyword_list self) /\
  brand_index self = _build_index U (brand_list self) /\
  type_index self = _build_index U (type_list self) /\
  size_index self = _build_index U (size_list self) /\
  age_index self = _build_index U (age_list self) /\
  gender_index self = _build_index U (gender_list self).
Proof.
  unfold _load_keyword_database.
  destruct (List.map _ table); [discriminate |].
  repeat match goal with
         | |- mbind _ ?r = _ -> _ => destruct r; cbn [mbind result_bind]; [| discriminate]
         end.
  by intros [= <-].
Qed.

(** The passes of [match_fields], each with the used set it starts from. *)
Lemma match_fields_each self cleaned :
  exists u1 u2 u3 u4 u5,
    let fm := match_fields U self cleaned in
    m_keywords fm = fst (match_from_index U cleaned (keyword_index self) ∅) /\
    m_brands fm = fst (match_from_index U cleaned (brand_index self) u1) /\
    m_types fm = fst (match_from_index U cleaned (type_index self) u2) /\
    m_sizes fm = fst (match_from_index U cleaned (size_index self) u3) /\
    m_ages fm = fst (match_from_index U cleaned (age_index self) u4) /\
    m_genders fm = fst (match_from_index U cleaned (gender_index self) u5).
Proof.
  unfold match_fields.
  destruct (match_from_index U cleaned (keyword_index self) ∅) as [k u1] eqn:H1.
  destruct (match_from_index U cleaned (brand_index self) u1) as [b u2] eqn:H2.
  destruct (match_from_index U cleaned (type_index self) u2) as [t u3] eqn:H3.
  destruct (match_from_index U cleaned (size_index self) u3) as [s u4] eqn:H4.
  destruct (match_from_index U cleaned (age_index self) u4) as [a u5] eqn:H5.
  destruct (match_from_index U cleaned (gender_index self) u5) as [g u6] eqn:H6.
  exists u1, u2, u3, u4, u5. cbn. by rewrite H2, H3, H4, H5, H6.
Qed.
End Fields.

(** X9. The uncovered words of a phrase are exactly its tokens at the
    positions that no recorded match of any of the six fields spans, in
    order. *)
Theorem uncovered_words_exact (U : UCD) (self : matcher) (phrase : ustring) :
  let cleaned := clean_phrase U (stopwords self) phrase in
  let fm := match_fields U self cleaned in
  uncovered_words (extract_all U self phrase)
    = List.map snd
        (List.filter (fun iw => negb (existsb (covers (fst iw)) (all_matches fm)))
           (enumerate (split U cleaned))).
Proof.
  intros cleaned fm. unfold extract_all. fold cleaned.
  destruct cleaned as [| c cl] eqn:Hc; [done |].
  cbn [uncovered_words]. f_equal. apply List.filter_ext. intros [i w]. cbn [fst].
  f_equal. subst fm.
  destruct (existsb _ _) eqn:He.
  - apply bool_decide_eq_true. by apply match_fields_used.
  - apply bool_decide_eq_false. rewrite match_fields_used. congruence.
Qed.

(** X10. A phrase none of whose tokens is a key of any index comes back
    with six empty sequences and all its tokens uncovered, in order. *)
Theorem extract_all_no_key (U : UCD) (self : matcher) (phrase : ustring) :
  let words := split U (clean_phrase U (stopwords self) phrase) in
  no_key (keyword_index self) words -> no_key (brand_index self) words ->
  no_key (type_index self) words -> no_key (size_index self) words ->
  no_key (age_index self) words -> no_key (gender_index self) words ->
  extract_all U self phrase
    = {| keywords := []; brands := []; types := []; sizes := []; ages := [];
         genders := []; uncovered_words := words |}.
Proof.
  intros words Hk Hb Ht Hs Ha Hg. unfold extract_all. subst words.
  destruct (clean_phrase U (stopwords self) phrase) as [| c cl] eqn:Hc; [done |].
  unfold match_fields.
  rewrite !match_from_index_no_key by done.
  cbn [m_keywords m_brands m_types m_sizes m_ages m_genders m_used List.map].
  f_equal.
  rewrite <- (snd_enumerate_from (split U (c :: cl)) 0) at 2.
  unfold enumerate. f_equal.
  induction (List.combine _ _) as [| iw l IH]; [done |].
  cbn. rewrite bool_decide_eq_false_2 by apply not_elem_of_empty. cbn. by rewrite IH.
Qed.

Lemma extract_all_no_key_witness :
  extract_all ucd_basic shoe_matcher (u "The red socks!")
    = {| keywords := []; brands := []; types := []; sizes := []; ages := [];
         genders := []; uncovered_words := [u "red"; u "socks"] |}.
Proof.
  apply (extract_all_no_key ucd_basic shoe_matcher (u "The red socks!"));
    vm_compute; repeat constructor.
Defined.

(** X11. Whatever a loaded matcher reports for a field is the normalized
    value of a row of that field's reference list. *)
Theorem extracted_are_reference_values (U : UCD) (table : frame)
    (options : options_t) (self : matcher) (phrase : ustring) :
  WebKeywordMatcher U table options = Ok self ->
  let e := extract_all U self phrase in
  Forall (reference_value U (keyword_list self)) (keywords e) /\
  Forall (reference_value U (brand_list self)) (brands e) /\
  Forall (reference_value U (type_list self)) (types e) /\
  Forall (reference_value U (size_list self)) (sizes e) /\
  Forall (reference_value U (age_list self)) (ages e) /\
  Forall (reference_value U (gender_list self)) (genders e).
Proof.
  intros Hload e.
  unfold WebKeywordMatcher in Hload.
  destruct (_parse_rank_limit U options) as [rl |]; [| discriminate].
  apply loaded_matcher in Hload as (_ & _ & Hk & Hb & Ht & Hs & Ha & Hg).
  assert (Hpass : forall word_list cleaned used,
            Forall (reference_value U word_list)
              (List.map match_text
                 (fst (match_from_index U cleaned (_build_index U word_list) used)))).
  { intros word_list cleaned used. apply List.Forall_map.
    eapply Forall_impl; [apply match_from_index_entries |].
    intros k (key & cands & row & Hc & Hin). cbn.
    destruct (build_index_entries U word_list key (match_text k) row) as [Hmem _].
    destruct (proj1 Hmem) as (word & Hl & Hw & _); [by rewrite Hc |].
    by exists row, word. }
  subst e. unfold extract_all.
  destruct (clean_phrase U (stopwords self) phrase) as [| c cl];
    [repeat split; constructor |].
  destruct (match_fields_each U self (c :: cl))
    as (u1 & u2 & u3 & u4 & u5 & H1 & H2 & H3 & H4 & H5 & H6).
  cbn [keywords brands types sizes ages genders].
  rewrite H1, H2, H3, H4, H5, H6, Hk, Hb, Ht, Hs, Ha, Hg.
  repeat split; apply Hpass.
Qed.

Lemma extracted_are_reference_values_witness :
  Forall (reference_value ucd_basic [u "shoe"])
    (keywords (extract_all ucd_basic shoe_matcher (u "Red SHOE and running shoe"))) /\
  Forall (reference_value ucd_basic [u "running shoe"])
    (brands (extract_all ucd_basic shoe_matcher (u "Red SHOE and running shoe"))).
Proof.
  destruct (extracted_are_reference_values ucd_basic shoe_table blank_options
              shoe_matcher (u "Red SHOE and running shoe") shoe_matcher_loaded)
    as (Hk & Hb & _).
  split; [exact Hk | exact Hb].
Defined.

(** ** Loading the reference table *)

Section Loading.
Context (U : UCD).

Lemma combine_headers (df : frame) :
  List.combine (List.map (fun col => normalize_header U (fst col)) df) (List.map snd df)
    = List.map (fun col => (normalize_header U (fst col), snd col)) df.
Proof. induction df as [| col df IH]; [done |]. cbn. by rewrite IH. Qed.

Lemma column_tolist_unique (kdf : frame) (label : ustring) (cells : list ustring) :
  NoDup (List.map fst kdf) -> (label, cells) ∈ kdf ->
  column_tolist kdf label = Ok cells.
Proof.
  unfold column_tolist. induction kdf as [| [l c] kdf IH]; intros Hnd Hin.
  - by apply elem_of_nil in Hin.
  - cbn [List.map fst] in Hnd. apply NoDup_cons in Hnd as [Hl Hnd].
    cbn [List.filter fst]. apply elem_of_cons in Hin as [[= -> ->] | Hin].
    + rewrite bool_decide_eq_true_2 by done.
      replace (List.filter _ kdf) with ([] : frame); [done |].
      symmetry. clear IH Hnd. induction kdf as [| [l' c'] kdf IH]; [done |].
      cbn [List.map fst] in Hl. apply not_elem_of_cons in Hl as [Hne Hl].
      cbn. rewrite bool_decide_eq_false_2 by congruence. by apply IH.
    + rewrite bool_decide_eq_false_2.
      * by apply IH.
      * intros ->. apply Hl. apply list_elem_of_In, in_map_iff.
        exists (label, cells). split; [done |]. by apply list_elem_of_In.
Qed.

Lemma col_map_in_columns columns role label :
  build_col_map U columns !! role = Some label -> label ∈ columns.
Proof.
  induction columns as [| c columns IH] using rev_ind.
  - unfold build_col_map. cbn. by rewrite lookup_empty.
  - rewrite build_col_map_snoc. unfold col_map_step.
    destruct (header_role U c) as [r |].
    + destruct (decide (r = role)) as [-> | Hne].
      * rewrite lookup_insert_eq. intros [= ->]. apply elem_of_app. right.
        apply list_elem_of_here.
      * rewrite lookup_insert_ne by done. intros H. apply elem_of_app. left. by apply IH.
    + intros H. apply elem_of_app. left. by apply IH.
Qed.

Lemma header_column (df : frame) label :
  label ∈ headers_of U df ->
  exists col, col ∈ df /\ normalize_header U (fst col) = label.
Proof.
  unfold headers_of. intros (col & <- & Hin)%list_elem_of_In%in_map_iff.
  exists col. split; [by apply list_elem_of_In | done].
Qed.

(** The loader once the first label is known. *)
Lemma load_unfold stop rl (df : frame) h0 hs :
  headers_of U df = h0 :: hs ->
  let kdf := List.map (fun col => (normalize_header U (fst col), snd col)) df in
  let col_map := build_col_map U (headers_of U df) in
  _load_keyword_database U stop rl df =
    (keyword_list ← column_tolist kdf (default h0 (col_map !! "Keyword"%string));
     type_list ← field_list kdf col_map "Type";
     gender_list ← field_list kdf col_map "Gender";
     size_list ← field_list kdf col_map "Size";
     age_list ← field_list kdf col_map "Special Age";
     brand_list ← field_list kdf col_map "Brand";
     Ok {| stopwords := stop; rank_limit := rl;
           keyword_list := keyword_list; type_list := type_list;
           gender_list := gender_list; size_list := size_list;
           age_list := age_list; brand_list := brand_list;
           keyword_index := _build_index U keyword_list;
           type_index := _build_index U type_list;
           gender_index := _build_index U gender_list;
           size_index := _build_index U size_list;
           age_index := _build_index U age_list;
           brand_index := _build_index U brand_list |}).
Proof.
  intros Hh. cbn zeta. unfold _load_keyword_database. rewrite combine_headers.
  fold (headers_of U df). revert Hh.
  destruct (headers_of U df) as [| h l]; [discriminate |].
  by intros [= -> ->].
Qed.
End Loading.

(** X12. Loading succeeds for every reference table that has a column and
    whose normalized labels are distinct; the list of each mapped role is
    then the column of the label it is mapped to, and the stop words and
    the rank limit are stored as given. *)
Theorem load_succeeds (U : UCD) (stop : gset ustring) (rl : option Z) (df : frame) :
  df <> [] -> NoDup (headers_of U df) ->
  exists self,
    _load_keyword_database U stop rl df = Ok self /\
    stopwords self = stop /\ rank_limit self = rl /\
    (is_Some (build_col_map U (headers_of U df) !! "Keyword"%string) ->
     role_cells U df "Keyword" (keyword_list self)) /\
    role_cells U df "Type" (type_list self) /\
    role_cells U df "Gender" (gender_list self) /\
    role_cells U df "Size" (size_list self) /\
    role_cells U df "Special Age" (age_list self) /\
    role_cells U df "Brand" (brand_list self).
Proof.
  intros Hne Hnd.
  assert (Hkdf : forall label, label ∈ headers_of U df ->
            exists col, col ∈ df /\ normalize_header U (fst col) = label /\
              column_tolist
                (List.map (fun col => (normalize_header U (fst col), snd col)) df) label
              = Ok (snd col)).
  { intros label Hl. destruct (header_column U df label Hl) as (col & Hin & Hc).
    exists col. split; [done |]. split; [done |].
    apply column_tolist_unique.
    - rewrite List.map_map. exact Hnd.
    - rewrite <- Hc. apply list_elem_of_In, in_map_iff. exists col.
      split; [done |]. by apply list_elem_of_In. }
  assert (Hrole : forall role, exists l,
            field_list (List.map (fun col => (normalize_header U (fst col), snd col)) df)
              (build_col_map U (headers_of U df)) role = Ok l /\
            role_cells U df role l).
  { intros role. unfold field_list, role_cells.
    destruct (build_col_map U (headers_of U df) !! role) as [label |] eqn:Hm.
    - destruct (Hkdf label (col_map_in_columns U _ _ _ Hm)) as (col & Hin & Hc & Ht).
      exists (snd col). split; [done |]. by exists col.
    - by exists []. }
  assert (Hh : exists h0 hs, headers_of U df = h0 :: hs).
  { destruct df as [| col0 df']; [done |]. unfold headers_of. cbn. eauto. }
  destruct Hh as (h0 & hs & Hh).
  destruct (Hkdf (default h0 (build_col_map U (headers_of U df) !! "Keyword"%string)))
    as (kcol & Hkin & Hkc & Hkt).
  { destruct (build_col_map U (headers_of U df) !! "Keyword"%string) eqn:Hm; cbn.
    - by eapply col_map_in_columns.
    - rewrite Hh. apply list_elem_of_here. }
  destruct (Hrole "Type"%string) as (tl & Htl' & Htl).
  destruct (Hrole "Gender"%string) as (gl & Hgl' & Hgl).
  destruct (Hrole "Size"%string) as (sl & Hsl' & Hsl).
  destruct (Hrole "Special Age"%string) as (al & Hal' & Hal).
  destruct (Hrole "Brand"%string) as (bl & Hbl' & Hbl).
  rewrite (load_unfold U stop rl df h0 hs Hh). cbn zeta.
  rewrite Hkt, Htl', Hgl', Hsl', Hal', Hbl'.
  cbn [mbind result_bind].
  eexists. split; [reflexivity |]. cbn.
  repeat split; try done.
  intros [label Hm]. unfold role_cells. rewrite Hm. rewrite Hm in Hkc. cbn in Hkc.
  by exists kcol.
Qed.

Lemma load_succeeds_witness :
  exists self,
    _load_keyword_database ucd_basic ∅ None shoe_table = Ok self /\
    role_cells ucd_basic shoe_table "Keyword" (keyword_list self) /\
    role_cells ucd_basic shoe_table "Brand" (brand_list self) /\
    role_cells ucd_basic shoe_table "Type" (type_list self).
Proof.
  destruct (load_succeeds ucd_basic ∅ None shoe_table)
    as (self & Hload & _ & _ & Hk & Ht & _ & _ & _ & Hb).
  - discriminate.
  - vm_compute. repeat constructor; rewrite ?elem_of_cons, ?elem_of_nil;
      intros H; repeat (destruct H as [H | H]; try discriminate); done.
  - exists self. split; [exact Hload |]. split; [| split; [exact Hb | exact Ht]].
    apply Hk. vm_compute. eauto.
Defined.

(** X13. A reference table without columns cannot be loaded: whenever
    the rank-limit option is parsed without an exception, the constructor
    fails with the load error, whatever the options. *)
Theorem load_fails_without_columns (U : UCD) (options : options_t)
    (limit : option Z) :
  _parse_rank_limit U options = Ok limit ->
  WebKeywordMatcher U [] options = Raise LoadError.
Proof. intros Hparse. unfold WebKeywordMatcher. rewrite Hparse. reflexivity. Qed.

Lemma load_fails_without_columns_witness :
  WebKeywordMatcher ucd_basic []
    {| opt_rank_limit := Some (u "25"); opt_custom_stopwords := Some (u "new, sale") |}
    = Raise LoadError.
Proof.
  apply (load_fails_without_columns ucd_basic
           {| opt_rank_limit := Some (u "25"); opt_custom_stopwords := Some (u "new, sale") |}
           (Some 25)).
  vm_compute. reflexivity.
Defined.

Section LoadFailure.
Context (U : UCD).

Lemma column_tolist_error (kdf : frame) label e :
  column_tolist kdf label = Raise e -> e = LoadError.
Proof.
  unfold column_tolist. destruct (List.filter _ kdf) as [| c [| c' l]]; congruence.
Qed.

Lemma field_list_error (kdf : frame) col_map role e :
  field_list kdf col_map role = Raise e -> e = LoadError.
Proof.
  unfold field_list. destruct (col_map !! role); [apply column_tolist_error | discriminate].
Qed.

Lemma column_tolist_shared (df : frame) label :
  (2 <= length (List.filter (fun h => bool_decide (h = label)) (headers_of U df)))%nat ->
  column_tolist (List.map (fun col => (normalize_header U (fst col), snd col)) df) label
    = Raise LoadError.
Proof.
  unfold column_tolist, headers_of. intros Hlen.
  assert (Heq : length (List.filter (fun col : ustring * list ustring =>
                          bool_decide (fst col = label))
                  (List.map (fun col => (normalize_header U (fst col), snd col)) df))
                = length (List.filter (fun h => bool_decide (h = label))
                            (List.map (fun col => normalize_header U (fst col)) df))).
  { clear Hlen. induction df as [| col df IH]; [done |].
    cbn. destruct (bool_decide _); cbn; by rewrite IH. }
  rewrite <- Heq in Hlen.
  destruct (List.filter _ _) as [| c [| c' l]]; cbn in Hlen; [lia | lia | done].
Qed.
End LoadFailure.

(** X14. When the label a role is mapped to is carried by two columns of
    the reference table (after normalization), loading fails with the load
    error. *)
Theorem load_fails_on_shared_label (U : UCD) (stop : gset ustring) (rl : option Z)
    (df : frame) (role : string) (label : ustring) :
  In role role_chain ->
  build_col_map U (headers_of U df) !! role = Some label ->
  (2 <= length (List.filter (fun h => bool_decide (h = label)) (headers_of U df)))%nat ->
  _load_keyword_database U stop rl df = Raise LoadError.
Proof.
  intros Hrole Hmap Hshared.
  destruct (headers_of U df) as [| h0 hs] eqn:Hh; [cbn in Hshared; lia |].
  rewrite <- Hh in *.
  rewrite (load_unfold U stop rl df h0 hs Hh). cbn zeta.
  pose proof (column_tolist_shared U df label Hshared) as Hfail.
  assert (Hfield : forall r, r = role ->
            field_list (List.map (fun col => (normalize_header U (fst col), snd col)) df)
              (build_col_map U (headers_of U df)) r = Raise LoadError).
  { intros r ->. unfold field_list. by rewrite Hmap. }
  repeat match goal with
         | |- mbind _ ?r = _ =>
             let E := fresh "E" in
             destruct r as [? | e] eqn:E; cbn [mbind result_bind];
             [| first [ apply column_tolist_error in E | apply field_list_error in E ];
                by subst e ]
         end.
  exfalso. cbn in Hrole.
  destruct Hrole as [<- | [<- | [<- | [<- | [<- | [<- | []]]]]]];
    try (rewrite Hfield in * by done; discriminate).
  rewrite Hmap in E. cbn in E. congruence.
Qed.

Lemma load_fails_on_shared_label_witness :
  _load_keyword_database ucd_basic ∅ None
    [(u "Keyword", [u "shoe"]); (u "Brand", [u "nike"]); (u "B rand", [u "puma"])]
    = Raise LoadError.
Proof.
  apply (load_fails_on_shared_label ucd_basic ∅ None _ "Brand"%string (u "Brand")).
  - cbn. tauto.
  - vm_compute. reflexivity.
  - vm_compute. lia.
Defined.

(** ** The rank limit, end to end *)


Lemma parse_rank_limit_cases (U : UCD) (options : options_t) :
  _parse_rank_limit U options
  = if str_isdigit U (default [] (opt_rank_limit options))
    then n ← py_int U (default [] (opt_rank_limit options)); Ok (Some n)
    else Ok None.
Proof. unfold _parse_rank_limit. by destruct (default [] _). Qed.



(** ** Statistics *)

Section CoverageRange.
Import Float.
Local Open Scope Q_scope.

Lemma truediv_same n : (0 < n)%Z -> truediv n n == 1.
Proof.
  intros Hn.
  assert (Hn' : ~ inject_Z n == 0).
  { change 0 with (inject_Z 0). rewrite inject_Z_injective. lia. }
  assert (Hq : inject_Z n / inject_Z n == 1) by (by field).
  unfold truediv. transitivity (round53 1); [| by vm_compute].
  apply round53_proper; [rewrite Hq; lra | exact Hq].
Qed.

Lemma percent_range c t : (c <= t)%nat -> (0 < t)%nat -> 0 <= percent c t <= 100.
Proof.
  intros Hct Ht. unfold percent, mul.
  destruct (truediv_mono (Z.of_nat c) (Z.of_nat t) (Z.of_nat t)) as [H0 Hle];
    [lia | lia | lia |].
  rewrite truediv_same in Hle by lia.
  split; [apply round53_nonneg; lra |].
  assert (H100 : round53 100 == 100) by (by vm_compute).
  apply Qle_trans with (round53 100); [apply round53_mono; lra | rewrite H100; lra].
Qed.

Lemma round2_range x : 0 <= x <= 100 -> 0 <= round2 x <= 100.
Proof.
  intros [H0 H100]. unfold round2.
  assert (Hr : (0 <= rne (x * 100) <= 10000)%Z).
  { split.
    - rewrite <- (rne_Z 0). apply rne_mono. change (inject_Z 0) with 0. lra.
    - rewrite <- (rne_Z 10000). apply rne_mono. change (inject_Z 10000) with 10000. lra. }
  destruct Hr as [Hr0 Hr1]. rewrite Zle_Qle in Hr0, Hr1.
  change (inject_Z 0) with 0 in Hr0. change (inject_Z 10000) with 10000 in Hr1.
  assert (Hq : 0 <= inject_Z (rne (x * 100)) / 100 <= 100).
  { split; [apply Qle_shift_div_l; lra | apply Qle_shift_div_r; lra]. }
  split; [apply round53_nonneg; lra |].
  assert (H : round53 100 == 100) by (by vm_compute).
  apply Qle_trans with (round53 100); [apply round53_mono; lra | rewrite H; lra].
Qed.

Lemma coverage_range (field : result_row -> ustring) (results : list result_row) :
  0 <= coverage field results <= 100.
Proof.
  unfold coverage.
  destruct (Nat.ltb_spec 0 (length results)) as [Hpos | _]; [| lra].
  apply (percent_range (length (List.filter (fun r => truthy (field r)) results))
           (length results)); [| done].
  clear Hpos. induction results as [| r results IH]; [done |].
  cbn. destruct (truthy (field r)); cbn; lia.
Qed.
End CoverageRange.

(** X16. Every coverage figure of the summary lies between 0 and 100, for
    any list of result rows, the empty one included (no division by
    zero). *)
Theorem coverage_within_percent (results : list result_row) :
  let st := _generate_statistics results in
  (0 <= keyword_coverage st <= 100)%Q /\
  (0 <= brand_coverage st <= 100)%Q /\
  (0 <= type_coverage st <= 100)%Q.
Proof.
  cbn. repeat split; apply round2_range, coverage_range.
Qed.

Section CounterFacts.

Lemma counter_get_add w w' c :
  counter_get (counter_add w c) w'
    = (counter_get c w' + if bool_decide (w = w') then 1 else 0)%nat.
Proof.
  unfold counter_get. induction c as [| [x n] c IH]; cbn.
  - destruct (bool_decide (w = w')); reflexivity.
  - destruct (bool_decide (x = w)) eqn:Hxw; cbn.
    + apply bool_decide_eq_true in Hxw as ->.
      destruct (bool_decide (w = w')); cbn; lia.
    + apply bool_decide_eq_false in Hxw.
      destruct (bool_decide (x = w')) eqn:Hxw'; [| apply IH].
      apply bool_decide_eq_true in Hxw' as ->.
      rewrite bool_decide_eq_false_2 by congruence. cbn. lia.
Qed.

Lemma counter_add_keys w c :
  List.map fst (counter_add w c)
    = if bool_decide (w ∈ List.map fst c) then List.map fst c
      else List.map fst c ++ [w].
Proof.
  induction c as [| [x n] c IH]; cbn.
  - rewrite bool_decide_eq_false_2; [done | apply not_elem_of_nil].
  - destruct (bool_decide (x = w)) eqn:Hxw; cbn.
    + apply bool_decide_eq_true in Hxw as ->.
      rewrite bool_decide_eq_true_2; [done | apply list_elem_of_here].
    + apply bool_decide_eq_false in Hxw. rewrite IH.
      destruct (bool_decide (w ∈ List.map fst c)) eqn:Hin.
      * apply bool_decide_eq_true in Hin.
        rewrite bool_decide_eq_true_2; [done | by apply list_elem_of_further].
      * apply bool_decide_eq_false in Hin.
        rewrite bool_decide_eq_false_2; [done |].
        rewrite elem_of_cons. intros [-> | H]; done.
Qed.

Lemma counter_add_positive w c :
  Forall (fun p => (0 < snd p)%nat) c ->
  Forall (fun p => (0 < snd p)%nat) (counter_add w c).
Proof.
  induction 1 as [| [x n] c Hx Hc IH]; cbn; [repeat constructor |].
  destruct (bool_decide (x = w)); constructor; cbn in *; try done; lia.
Qed.

Lemma counter_ok_add w c : counter_ok c -> counter_ok (counter_add w c).
Proof.
  intros [Hnd Hpos]. split; [| by apply counter_add_positive].
  rewrite counter_add_keys.
  destruct (bool_decide (w ∈ List.map fst c)) eqn:Hin; [done |].
  apply bool_decide_eq_false in Hin.
  apply NoDup_app. split; [done |]. split; [| apply NoDup_singleton].
  intros x Hx ->%list_elem_of_singleton. done.
Qed.

Lemma Counter_counts l :
  counter_ok (Counter l) /\
  forall w, counter_get (Counter l) w = occurrences w l.
Proof.
  unfold Counter.
  assert (Hgen : forall c, counter_ok c ->
            counter_ok (fold_left (fun c w => counter_add w c) l c) /\
            forall w, counter_get (fold_left (fun c w => counter_add w c) l c) w
                      = (counter_get c w + occurrences w l)%nat).
  { induction l as [| x l IH]; intros c Hc; cbn.
    - split; [done |]. intros w. unfold occurrences. cbn. lia.
    - destruct (IH (counter_add x c) (counter_ok_add x c Hc)) as [Hok Hget].
      split; [done |]. intros w. rewrite Hget, counter_get_add.
      unfold occurrences. cbn. destruct (bool_decide (x = w)); cbn; lia. }
  destruct (Hgen []) as [Hok Hget]; [split; constructor |].
  split; [done |]. intros w. by rewrite Hget.
Qed.

Lemma counter_get_elem c w n : counter_ok c -> (w, n) ∈ c -> counter_get c w = n.
Proof.
  intros [Hnd _]. unfold counter_get.
  induction c as [| [x m] c IH]; intros Hin; [by apply elem_of_nil in Hin |].
  cbn in Hnd |- *. apply NoDup_cons in Hnd as [Hx Hnd].
  apply elem_of_cons in Hin as [[= -> ->] | Hin].
  - by rewrite bool_decide_eq_true_2.
  - rewrite bool_decide_eq_false_2; [by apply IH |].
    intros ->. apply Hx. apply list_elem_of_In, in_map_iff. exists (w, n).
    split; [done | by apply list_elem_of_In].
Qed.

Lemma counter_get_entry c w :
  (0 < counter_get c w)%nat -> (w, counter_get c w) ∈ c.
Proof.
  unfold counter_get.
  destruct (List.find _ c) as [[x n] |] eqn:Hf; [| lia].
  intros _. apply List.find_some in Hf as [Hin Hx].
  apply bool_decide_eq_true in Hx. cbn in *. subst x. by apply list_elem_of_In.
Qed.

Lemma elem_of_insert_count x y l : x ∈ insert_count y l <-> x = y \/ x ∈ l.
Proof.
  induction l as [| z l IH]; cbn.
  - rewrite list_elem_of_singleton, elem_of_nil. tauto.
  - destruct (snd z <=? snd y)%nat.
    + by rewrite elem_of_cons.
    + rewrite !elem_of_cons, IH. tauto.
Qed.

Lemma insert_count_perm y l : insert_count y l ≡ₚ y :: l.
Proof.
  induction l as [| z l IH]; cbn; [done |].
  destruct (snd z <=? snd y)%nat; [done |].
  rewrite IH. apply Permutation_swap.
Qed.

Lemma sorted_counts_perm c : foldr insert_count [] c ≡ₚ c.
Proof.
  induction c as [| y c IH]; [done |]. cbn. by rewrite insert_count_perm, IH.
Qed.

Lemma insert_count_sorted y l :
  StronglySorted (fun a b => (snd b <= snd a)%nat) l ->
  StronglySorted (fun a b => (snd b <= snd a)%nat) (insert_count y l).
Proof.
  induction l as [| z l IH]; intros Hs; cbn; [repeat constructor |].
  apply StronglySorted_cons in Hs as [Hz Hs].
  destruct (Nat.leb_spec (snd z) (snd y)) as [Hle | Hlt].
  - apply StronglySorted_cons. split; [| by apply StronglySorted_cons].
    constructor; [done |]. eapply Forall_impl; [exact Hz |]. cbn. lia.
  - apply StronglySorted_cons. split; [| by apply IH].
    apply Forall_forall. intros x [-> | Hx]%elem_of_insert_count; [lia |].
    rewrite Forall_forall in Hz. by apply Hz.
Qed.

Lemma sorted_counts_sorted c :
  StronglySorted (fun a b => (snd b <= snd a)%nat) (foldr insert_count [] c).
Proof. induction c as [| y c IH]; cbn; [constructor | by apply insert_count_sorted]. Qed.
Lemma occurrences_pos l w : (0 < occurrences w l)%nat <-> w ∈ l.
Proof.
  unfold occurrences. induction l as [| x l IH]; cbn.
  - rewrite elem_of_nil. lia.
  - rewrite elem_of_cons. destruct (bool_decide (x = w)) eqn:Hx; cbn.
    + apply bool_decide_eq_true in Hx. split; [by left | lia].
    + apply bool_decide_eq_false in Hx. rewrite IH. split; [by right |].
      by intros [-> | H].
Qed.
End CounterFacts.

(** X17. The summary lists at most ten uncovered words, each once, each
    with the number of times it occurs among the counted tokens, most
    frequent first; a counted token that is not listed occurs no more
    often than any listed one, and then ten are listed. *)
Theorem top_uncovered_words_counts (results : list result_row) :
  let top := top_uncovered_words (_generate_statistics results) in
  let tokens := all_uncovered results in
  (length top <= 10)%nat /\
  NoDup (List.map fst top) /\
  StronglySorted (fun a b => (snd b <= snd a)%nat) top /\
  Forall (fun p => snd p = occurrences (fst p) tokens /\ fst p ∈ tokens) top /\
  (forall w, w ∈ tokens -> w ∉ List.map fst top ->
     length top = 10%nat /\ Forall (fun p => (occurrences w tokens <= snd p)%nat) top).
Proof.
  intros top tokens.
  assert (Htop : top = take 10 (foldr insert_count [] (Counter tokens))) by reflexivity.
  destruct (Counter_counts tokens) as [Hok Hget].
  set (sorted := foldr insert_count [] (Counter tokens)) in *.
  pose proof (sorted_counts_perm (Counter tokens)) as Hperm. fold sorted in Hperm.
  pose proof (sorted_counts_sorted (Counter tokens)) as Hsorted. fold sorted in Hsorted.
  assert (Hsplit : sorted = top ++ drop 10 sorted) by (by rewrite Htop, take_drop).
  pose proof (occurrences_pos tokens) as Hocc.
  split; [rewrite Htop, length_take; lia |].
  split.
  { destruct Hok as [Hnd _]. rewrite <- Hperm, Hsplit, List.map_app in Hnd.
    by apply NoDup_app in Hnd as [Hnd _]. }
  split.
  { rewrite Hsplit in Hsorted. by apply StronglySorted_app_1_l in Hsorted. }
  split.
  { apply Forall_forall. intros [w n] Hin. cbn [fst snd].
    assert (Hc : (w, n) ∈ Counter tokens).
    { rewrite <- Hperm, Hsplit. apply elem_of_app. by left. }
    pose proof (counter_get_elem _ _ _ Hok Hc) as Hn. rewrite Hget in Hn.
    split; [done |]. apply Hocc. rewrite Hn.
    destruct Hok as [_ Hpos]. rewrite Forall_forall in Hpos. by apply (Hpos _ Hc). }
  intros w Hw Hnot.
  assert (Hc : (w, occurrences w tokens) ∈ sorted).
  { rewrite Hperm, <- Hget. apply counter_get_entry. rewrite Hget. by apply Hocc. }
  rewrite Hsplit in Hc. apply elem_of_app in Hc as [Hc | Hc].
  { exfalso. apply Hnot. apply list_elem_of_In, in_map_iff.
    exists (w, occurrences w tokens). split; [done | by apply list_elem_of_In]. }
  split.
  - rewrite Htop, length_take.
    assert (10 < length sorted \/ length sorted <= 10)%nat as [? | Hshort] by lia; [lia |].
    rewrite drop_ge in Hc by done. by apply elem_of_nil in Hc.
  - apply Forall_forall. intros p Hp.
    rewrite Hsplit in Hsorted.
    apply (StronglySorted_app_1_elem_of _ _ _ p (w, occurrences w tokens) Hsorted Hp Hc).
Qed.

Section Separator.

Lemma startswith_empty s : startswith s [] = true.
Proof. by destruct s. Qed.

Lemma startswith_comma_space c s :
  match s with d :: _ => d <> 32 | [] => True end ->
  startswith (c :: s) comma_space = false.
Proof.
  intros Hs. unfold comma_space. cbn [startswith].
  destruct s as [| d s]; [apply andb_false_r |]. cbn [startswith].
  rewrite (proj2 (Z.eqb_neq 32 d)) by done. apply andb_false_r.
Qed.

Lemma split_sep_word w cur :
  32 ∉ w -> split_sep_aux comma_space 0 cur w = [rev cur ++ w].
Proof.
  revert cur. induction w as [| c w IH]; intros cur Hw.
  - cbn. by rewrite app_nil_r.
  - apply not_elem_of_cons in Hw as [Hc Hw]. cbn [split_sep_aux].
    rewrite startswith_comma_space.
    + rewrite IH by done. cbn. by rewrite <- app_assoc.
    + destruct w as [| d w]; [done |]. by apply not_elem_of_cons in Hw as [Hd _].
Qed.

Lemma split_sep_cut w cur t :
  32 ∉ w ->
  split_sep_aux comma_space 0 cur (w ++ comma_space ++ t)
    = (rev cur ++ w) :: split_sep_aux comma_space 0 [] t.
Proof.
  revert cur. induction w as [| c w IH]; intros cur Hw.
  - cbn. rewrite startswith_empty. by rewrite app_nil_r.
  - apply not_elem_of_cons in Hw as [Hc Hw].
    rewrite <- app_comm_cons. cbn [split_sep_aux].
    rewrite startswith_comma_space.
    + rewrite IH by done. cbn. by rewrite <- app_assoc.
    + destruct w as [| d w]; cbn; [done |]. by apply not_elem_of_cons in Hw as [Hd _].
Qed.

Lemma split_sep_join ws :
  ws <> [] -> Forall (fun w => 32 ∉ w) ws ->
  split_sep comma_space (join comma_space ws) = ws.
Proof.
  intros Hne Hws. unfold split_sep.
  induction Hws as [| w rest Hw Hrest IH]; [done |].
  destruct rest as [| w' rest].
  - cbn [join]. by rewrite split_sep_word.
  - change (join comma_space (w :: w' :: rest))
      with (w ++ comma_space ++ join comma_space (w' :: rest)).
    rewrite split_sep_cut by done. cbn [rev app]. by rewrite IH.
Qed.

Lemma join_comma_nonempty ws :
  ws <> [] -> Forall (fun w => w <> []) ws -> join comma_space ws <> [].
Proof.
  intros Hne Hws. destruct Hws as [| w rest Hw Hrest]; [done |].
  destruct rest; cbn; [done |]. by destruct w.
Qed.

Lemma elem_of_filter_enumerate {A} (f : nat * A -> bool) (l : list A) x :
  x ∈ List.map snd (List.filter f (enumerate l)) -> x ∈ l.
Proof.
  intros Hx. apply list_elem_of_In, in_map_iff in Hx as [[i y] [<- Hin]].
  apply List.filter_In in Hin as [Hin _]. apply in_combine_r in Hin.
  by apply list_elem_of_In.
Qed.

Lemma uncovered_words_tokens (U : UCD) (self : matcher) (phrase : ustring) :
  Forall (token U) (uncovered_words (extract_all U self phrase)).
Proof.
  unfold extract_all.
  destruct (clean_phrase U (stopwords self) phrase) as [| c cl] eqn:Hc; [constructor |].
  cbn [uncovered_words]. apply Forall_forall. intros w Hw.
  apply elem_of_filter_enumerate in Hw.
  assert (Hsplit : Forall (fun w => token U w /\ Forall (fun _ => True) w)
                     (split U (c :: cl))).
  { apply split_tokens. by apply Forall_forall. }
  rewrite Forall_forall in Hsplit. by apply Hsplit.
Qed.
End Separator.

(** X18. The tokens the statistics count are exactly the uncovered words
    of the processed rows, row after row: joining a row's words with
    [', '] and splitting the text again loses and invents nothing. *)
Theorem counted_tokens_are_uncovered_words (U : UCD) (self : matcher)
    (cells : list (option ustring)) :
  isspace U 32 = true ->
  all_uncovered (List.map (result_row_of U self) cells)
    = List.concat
        (List.map (fun cell => uncovered_words (extract_all U self (default [] cell)))
           cells).
Proof.
  intros Hsp. unfold all_uncovered. rewrite List.map_map. f_equal.
  apply List.map_ext. intros cell. cbn [row_uncovered result_row_of].
  pose proof (uncovered_words_tokens U self (default [] cell)) as Htok.
  destruct (uncovered_words (extract_all U self (default [] cell))) as [| w ws] eqn:Hu;
    [done |].
  assert (Hne : join comma_space (w :: ws) <> []).
  { apply join_comma_nonempty; [done |].
    eapply Forall_impl; [exact Htok |]. by intros x [Hx _]. }
  destruct (join comma_space (w :: ws)) as [| c s] eqn:Hj; [done |].
  cbn [truthy]. rewrite <- Hj. apply split_sep_join; [done |].
  eapply Forall_impl; [exact Htok |]. intros x [_ Hx] Hin.
  rewrite Forall_forall in Hx. specialize (Hx 32 Hin). congruence.
Qed.

Lemma counted_tokens_are_uncovered_words_witness :
  all_uncovered (List.map (result_row_of ucd_basic shoe_matcher)
                   [Some (u "red running shoes for men"); None; Some (u "trail socks")])
    = List.concat
        (List.map (fun cell =>
                     uncovered_words (extract_all ucd_basic shoe_matcher (default [] cell)))
           [Some (u "red running shoes for men"); None; Some (u "trail socks")]).
Proof.
  apply (counted_tokens_are_uncovered_words ucd_basic shoe_matcher). reflexivity.
Defined.

Section FileNames.

Lemma contains_char (s : ustring) (c : Z) : contains s [c] = true <-> c ∈ s.
Proof.
  induction s as [| d s IH]; cbn.
  - rewrite elem_of_nil. split; [done | tauto].
  - rewrite elem_of_cons, <- IH, orb_true_iff, andb_true_iff, Z.eqb_eq.
    split.
    + intros [[-> _] | H]; [by left | by right].
    + intros [-> | H]; [left; split; [done | by destruct s] | by right].
Qed.

Lemma rsplit_last_none (sep : Z) (s : ustring) : sep ∉ s -> rsplit_last sep s = None.
Proof.
  induction s as [| c s IH]; [done |]. intros [Hc Hs]%not_elem_of_cons. cbn.
  rewrite IH by done. by rewrite (proj2 (Z.eqb_neq c sep)).
Qed.

Lemma rsplit_last_app (sep : Z) (stem ext : ustring) :
  sep ∉ ext -> rsplit_last sep (stem ++ sep :: ext) = Some (stem, ext).
Proof.
  intros Hext. induction stem as [| c stem IH]; cbn.
  - by rewrite rsplit_last_none, Z.eqb_refl.
  - by rewrite IH.
Qed.

Lemma last_separator (sep : Z) (s : ustring) :
  sep ∈ s -> exists stem ext, s = stem ++ sep :: ext /\ sep ∉ ext.
Proof.
  induction s as [| c s IH]; [by intros ?%elem_of_nil |].
  intros Hin. destruct (decide (sep ∈ s)) as [Hs | Hs].
  - destruct (IH Hs) as (stem & ext & -> & Hext). by exists (c :: stem), ext.
  - apply elem_of_cons in Hin as [-> | Hin]; [| done]. by exists [], s.
Qed.

Lemma startswith_app a t p : startswith (a ++ t) (a ++ p) = startswith t p.
Proof. induction a as [| c a IH]; cbn; [done |]. by rewrite Z.eqb_refl, IH. Qed.

Lemma startswith_separator (sep : Z) (a b t : ustring) :
  sep ∉ a -> sep ∉ b ->
  startswith (a ++ sep :: t) (b ++ [sep]) = true -> a = b.
Proof.
  revert b. induction a as [| c a IH]; intros [| d b] Ha Hb; cbn.
  - done.
  - apply not_elem_of_cons in Hb as [Hd _].
    rewrite (proj2 (Z.eqb_neq d sep)) by done. done.
  - apply not_elem_of_cons in Ha as [Hc _].
    rewrite (proj2 (Z.eqb_neq sep c)) by done. done.
  - apply not_elem_of_cons in Ha as [_ Ha]. apply not_elem_of_cons in Hb as [_ Hb].
    intros [->%Z.eqb_eq H]%andb_true_iff. f_equal. by apply IH.
Qed.

Lemma endswith_extension (stem ext e : ustring) :
  46 ∉ ext -> 46 ∉ e ->
  endswith (stem ++ 46 :: ext) (46 :: e) = bool_decide (ext = e).
Proof.
  intros Hext He. unfold endswith.
  rewrite rev_app_distr. cbn [rev]. rewrite <- !app_assoc. cbn [app].
  destruct (bool_decide (ext = e)) eqn:Heq.
  - apply bool_decide_eq_true in Heq as ->.
    rewrite startswith_app. cbn. by destruct (rev stem).
  - apply bool_decide_eq_false in Heq.
    destruct (startswith _ _) eqn:Hs; [| done]. exfalso. apply Heq.
    apply startswith_separator in Hs.
    + by rewrite <- (rev_involutive ext), Hs, rev_involutive.
    + intros Hin. apply Hext. by apply list_elem_of_In, in_rev, list_elem_of_In.
    + intros Hin. apply He. by apply list_elem_of_In, in_rev, list_elem_of_In.
Qed.

Lemma input_format_extension (stem ext : ustring) :
  46 ∉ ext ->
  input_format_of (stem ++ 46 :: ext)
    = if bool_decide (ext = u "xlsx") || bool_decide (ext = u "xls") then Some Excel
      else if bool_decide (ext = u "csv") then Some Csv
      else None.
Proof.
  intros Hext. unfold input_format_of.
  change (u ".xlsx") with (46 :: u "xlsx").
  change (u ".xls") with (46 :: u "xls").
  change (u ".csv") with (46 :: u "csv").
  rewrite !endswith_extension; try done;
    (intros Hin; apply list_elem_of_In in Hin; cbn in Hin; intuition discriminate).
Qed.

Lemma allowed_extensions (ext : ustring) :
  ext ∈ ALLOWED_EXTENSIONS <-> ext = u "xlsx" \/ ext = u "xls" \/ ext = u "csv".
Proof. unfold ALLOWED_EXTENSIONS. rewrite !elem_of_union, !elem_of_singleton. tauto. Qed.
Lemma allowed_file_extension (U : UCD) (stem ext : ustring) :
  46 ∉ ext ->
  allowed_file U (stem ++ 46 :: ext) = bool_decide (lower U ext ∈ ALLOWED_EXTENSIONS).
Proof.
  intros Hext. unfold allowed_file, rsplit1. rewrite rsplit_last_app by done.
  cbn [lookup list_lookup].
  replace (contains (stem ++ 46 :: ext) [46]) with true; [done |].
  symmetry. apply contains_char, elem_of_app. right. apply list_elem_of_here.
Qed.
End FileNames.

(** X19. A file name is accepted for upload exactly when it has a dot
    and the text after its last dot, lower-cased, is xlsx, xls or csv. *)
Theorem allowed_file_by_extension (U : UCD) (filename : ustring) :
  allowed_file U filename = true <->
  exists stem ext, filename = stem ++ 46 :: ext /\ (46 ∉ ext) /\
                   lower U ext ∈ ALLOWED_EXTENSIONS.
Proof.
  unfold allowed_file. rewrite andb_true_iff, contains_char. split.
  - intros [Hdot Hext].
    destruct (last_separator 46 filename Hdot) as (stem & ext & -> & Hno).
    exists stem, ext. split; [done |]. split; [done |].
    unfold rsplit1 in Hext. rewrite rsplit_last_app in Hext by done.
    cbn in Hext. by apply bool_decide_eq_true in Hext.
  - intros (stem & ext & -> & Hno & Hin). split.
    + apply elem_of_app. right. apply list_elem_of_here.
    + unfold rsplit1. rewrite rsplit_last_app by done. cbn.
      by apply bool_decide_eq_true.
Qed.

(** X20. For a file name whose last dot is followed by [ext],
    [process_file] reads the file exactly when [ext] is one of xlsx, xls
    and csv as written: as a spreadsheet for the first two, as CSV for
    the third. *)
Theorem input_format_by_extension (stem ext : ustring) :
  46 ∉ ext ->
  (is_Some (input_format_of (stem ++ 46 :: ext)) <-> ext ∈ ALLOWED_EXTENSIONS) /\
  (input_format_of (stem ++ 46 :: ext) = Some Csv <-> ext = u "csv") /\
  (input_format_of (stem ++ 46 :: ext) = Some Excel <-> ext = u "xlsx" \/ ext = u "xls").
Proof.
  intros Hext. rewrite input_format_extension, allowed_extensions by done.
  destruct (bool_decide (ext = u "xlsx")) eqn:H1;
    [apply bool_decide_eq_true in H1 | apply bool_decide_eq_false in H1];
  (destruct (bool_decide (ext = u "xls")) eqn:H2;
    [apply bool_decide_eq_true in H2 | apply bool_decide_eq_false in H2]);
  (destruct (bool_decide (ext = u "csv")) eqn:H3;
    [apply bool_decide_eq_true in H3 | apply bool_decide_eq_false in H3]);
  cbn [orb]; (split; [| split]); split;
  try (intros [? Hx]; discriminate Hx); try discriminate; try tauto; try (by eexists);
  try (intros _; subst ext; discriminate);
  try (intros Hx; exfalso; subst ext; intuition discriminate).
Qed.

Lemma input_format_by_extension_witness :
  (is_Some (input_format_of (u "phrases.v2" ++ 46 :: u "csv"))
     <-> u "csv" ∈ ALLOWED_EXTENSIONS) /\
  (input_format_of (u "phrases.v2" ++ 46 :: u "csv") = Some Csv <-> u "csv" = u "csv") /\
  (input_format_of (u "phrases.v2" ++ 46 :: u "csv") = Some Excel
     <-> u "csv" = u "xlsx" \/ u "csv" = u "xls").
Proof.
  apply (input_format_by_extension (u "phrases.v2") (u "csv")).
  intros Hin. apply list_elem_of_In in Hin. cbn in Hin. intuition discriminate.
Defined.

(** X21. A name whose extension is xlsx, xls or csv only after
    lower-casing (CSV, Xlsx, ...) passes the upload check, yet
    [process_file] refuses every path with that extension as an
    unsupported format, whatever the file holds. *)
Theorem folded_extension_rejected_late (U : UCD) (self : matcher)
    (stem path_stem ext : ustring) (index : row_index) (df : phrase_frame)
    (progress_callback : bool) :
  46 ∉ ext ->
  lower U ext ∈ ALLOWED_EXTENSIONS ->
  ext ∉ ALLOWED_EXTENSIONS ->
  allowed_file U (stem ++ 46 :: ext) = true /\
  process_input U self (path_stem ++ 46 :: ext) index df progress_callback
    = Failed UnsupportedFormat [].
Proof.
  intros Hdot Hlow Hext. split.
  - rewrite allowed_file_extension by done. by apply bool_decide_eq_true.
  - unfold process_input. rewrite input_format_extension by done.
    rewrite allowed_extensions in Hext.
    rewrite !bool_decide_eq_false_2; [done | tauto | tauto | tauto].
Qed.

Lemma folded_extension_rejected_late_witness :
  allowed_file ucd_basic (u "phrases" ++ 46 :: u "CSV") = true /\
  process_input ucd_basic plain_matcher (u "uploads/7_phrase_phrases" ++ 46 :: u "CSV")
      RangeIndex [(u "Phrase", [Some (u "red boot")])] true
    = Failed UnsupportedFormat [].
Proof.
  apply (folded_extension_rejected_late ucd_basic plain_matcher
           (u "phrases") (u "uploads/7_phrase_phrases") (u "CSV")).
  - intros Hin. apply list_elem_of_In in Hin. cbn in Hin. intuition discriminate.
  - apply allowed_extensions. right. right. vm_compute. reflexivity.
  - rewrite allowed_extensions. intuition discriminate.
Defined.

Section PhraseColumn.
Context {A : Type} (f : A -> bool).

Lemma find_first l x :
  List.find f l = Some x ->
  exists before after,
    l = before ++ x :: after /\ Forall (fun y => f y = false) before /\ f x = true.
Proof.
  induction l as [| y l IH]; [done |]. cbn.
  destruct (f y) eqn:Hy.
  - intros [= ->]. by exists [], l.
  - intros Hf. destruct (IH Hf) as (before & after & -> & Hb & Hx).
    exists (y :: before), after. split; [done |]. split; [by constructor | done].
Qed.

Lemma find_none l : List.find f l = None -> Forall (fun y => f y = false) l.
Proof.
  induction l as [| y l IH]; [constructor |]. cbn.
  destruct (f y) eqn:Hy; [done |]. intros Hf. constructor; [done | by apply IH].
Qed.
End PhraseColumn.

(** X22. For a file name of a supported format, [process_file] fails
    when the table read has no column; otherwise it runs its loop over
    the first column whose lower-cased label contains one of the six
    markers, and over the first column of the table when no label does. *)
Theorem process_input_phrase_column (U : UCD) (self : matcher)
    (input_file : ustring) (index : row_index) (df : phrase_frame)
    (progress_callback : bool) (fmt : input_format) :
  input_format_of input_file = Some fmt ->
  match df with
  | [] => process_input U self input_file index df progress_callback = Failed NoColumns []
  | _ :: _ =>
      exists before col after,
        df = before ++ col :: after /\
        Forall (fun c => is_phrase_label U (fst c) = false) before /\
        (is_phrase_label U (fst col) = true \/
         (before = [] /\ Forall (fun c => is_phrase_label U (fst c) = false) after)) /\
        process_input U self input_file index df progress_callback
          = process_file U self index (snd col) progress_callback
  end.
Proof.
  intros Hfmt. unfold process_input, find_phrase_col. rewrite Hfmt.
  destruct df as [| first rest]; [done |].
  destruct (List.find _ (first :: rest)) as [col |] eqn:Hfind.
  - destruct (find_first _ _ _ Hfind) as (before & after & Hdf & Hb & Hcol).
    exists before, col, after. split; [done |]. split; [done |]. split; [by left | done].
  - apply find_none in Hfind. apply Forall_cons in Hfind as [Hfirst Hrest].
    exists [], first, rest. split; [done |]. split; [constructor |].
    split; [by right | done].
Qed.

Lemma process_input_phrase_column_witness :
  exists before col after,
    [(u "Rank", [Some (u "1")]); (u "Search Phrase", [Some (u "red boot")])]
      = before ++ col :: after /\
    Forall (fun c => is_phrase_label ucd_basic (fst c) = false) before /\
    (is_phrase_label ucd_basic (fst col) = true \/
     (before = [] /\ Forall (fun c => is_phrase_label ucd_basic (fst c) = false) after)) /\
    process_input ucd_basic plain_matcher (u "in.csv") RangeIndex
        [(u "Rank", [Some (u "1")]); (u "Search Phrase", [Some (u "red boot")])] true
      = process_file ucd_basic plain_matcher RangeIndex (snd col) true.
Proof.
  apply (process_input_phrase_column ucd_basic plain_matcher (u "in.csv") RangeIndex
           [(u "Rank", [Some (u "1")]); (u "Search Phrase", [Some (u "red boot")])]
           true Csv).
  reflexivity.
Defined.

Section TaskProgress.
Import Float.




End TaskProgress.


(** ** Longest match first (C2) *)

Section LongestMatch.
Context (U : UCD).

Lemma fits_spans words i word kw :
  words !! i = Some word ->
  fits U words i word kw = true <-> spans U words i kw.
Proof.
  intros Hw. unfold fits, spans.
  destruct (Nat.eqb_spec (length (split U kw)) 1) as [-> | Hne].
  - rewrite bool_decide_eq_true, (drop_S _ _ _ Hw). cbn. rewrite take_0. cbn.
    pose proof (lookup_lt_Some _ _ _ Hw). split; [intros ->; split; [lia | done] |].
    by intros [_ ?].
  - by rewrite andb_true_iff, Nat.leb_le, bool_decide_eq_true.
Qed.

Lemma precedes_stored_before a b : precedes U a b -> stored_before U a b.
Proof.
  unfold precedes, stored_before, sort_key, key_le. cbn [fst snd].
  intros [Hk Hrow].
  apply orb_true_iff in Hk as [Hlt%Nat.ltb_lt | [Heq%Nat.eqb_eq Hle%Nat.leb_le]%andb_true_iff];
    [by left |].
  right. destruct (decide (length (fst b) = length (fst a))) as [Hl | Hl].
  - right. split; [done |]. split; [done |]. apply Hrow. congruence.
  - left. split; [done | lia].
Qed.

Lemma bucket_order word_list first bucket :
  _build_index U word_list !! first = Some bucket ->
  StronglySorted (stored_before U) bucket.
Proof.
  intros Hb. apply build_index_sorted in Hb.
  induction Hb as [| a l Hl IH Ha]; constructor; [done |].
  eapply Forall_impl; [exact Ha |]. intros b. apply precedes_stored_before.
Qed.

Lemma match_step_grows (index : gmap ustring (list entry)) words st iw :
  (forall k, k ∈ fst st -> k ∈ fst (match_step U index words st iw)) /\
  (forall j, j ∈ snd st -> j ∈ snd (match_step U index words st iw)).
Proof.
  destruct st as [m used], iw as [n x].
  destruct (match_step_cases U index words m used n x)
    as [-> | (kw & cands & row & _ & _ & _ & _ & ->)]; [done |].
  cbn [fst snd]. split.
  - intros k Hk. apply elem_of_app. by left.
  - intros j Hj. apply elem_of_union. by left.
Qed.

(** The scan records the first fitting candidate at a position it reaches
    free. *)
Lemma scan_records (index : gmap ustring (list entry)) words used0 i word
    (pre : list entry) kw row (post : list entry) :
  words !! i = Some word ->
  index !! word = Some (pre ++ (kw, row) :: post) ->
  Forall (fun c => fits U words i word (fst c) = false) pre ->
  fits U words i word kw = true ->
  let out := fold_left (match_step U index words) (enumerate words) ([], used0) in
  i ∉ used0 ->
  (forall k, k ∈ fst out -> (match_start k < i)%nat -> covers i k = false) ->
  match_of U i kw ∈ fst out /\ (forall j, j ∈ claimed U i kw -> j ∈ snd out).
Proof.
  intros Hw Hbucket Hpre Hfit out Hfree Hclear.
  assert (Htry : try_candidates U words i word (pre ++ (kw, row) :: post) = Some kw).
  { clear -Hpre Hfit. induction Hpre as [| [kw' row'] pre Hc Hpre IH]; cbn.
    - by rewrite Hfit.
    - cbn in Hc. by rewrite Hc. }
  assert (Hinv : pass_inv U words used0 (length words) out /\
            ((i < length words)%nat ->
             (forall k, k ∈ fst out -> (match_start k < i)%nat -> covers i k = false) ->
             match_of U i kw ∈ fst out /\
             (forall j, j ∈ claimed U i kw -> j ∈ snd out))).
  { subst out.
    apply (fold_enumerate_ind (match_step U index words)
             (fun n st => pass_inv U words used0 n st /\
                ((i < n)%nat ->
                 (forall k, k ∈ fst st -> (match_start k < i)%nat -> covers i k = false) ->
                 match_of U i kw ∈ fst st /\
                 (forall j, j ∈ claimed U i kw -> j ∈ snd st)))).
    - split; [| lia].
      split; [constructor |]. split; [constructor |]. split; [constructor |].
      intros j. cbn. split; [tauto | intros [H | H]; [done | discriminate]].
    - intros n st x Hx [Hpass Htarget].
      split; [by apply match_step_inv |].
      intros Hin Hno.
      destruct (match_step_grows index words st (n, x)) as [Hm Hu].
      assert (Hno' : forall k, k ∈ fst st -> (match_start k < i)%nat -> covers i k = false).
      { intros k Hk. apply Hno, Hm, Hk. }
      destruct (decide (i = n)) as [-> | Hne].
      + clear Htarget. rewrite Hw in Hx. injection Hx as <-.
        destruct st as [m used]. cbn [fst snd] in *.
        destruct Hpass as (_ & Hstart & _ & Hused). cbn [fst snd] in *.
        assert (Hn : n ∉ used).
        { rewrite Hused. intros [H | H]; [done |].
          apply existsb_exists in H as (k & Hk & Hcov).
          apply list_elem_of_In in Hk. rewrite Forall_forall in Hstart.
          destruct (Hstart k Hk) as [Hlt _]. rewrite (Hno' k Hk Hlt) in Hcov.
          discriminate. }
        unfold match_step. rewrite bool_decide_eq_false_2 by done.
        rewrite Hbucket, Htry. cbn [fst snd]. split.
        * apply elem_of_app. right. apply list_elem_of_here.
        * intros j Hj. apply elem_of_union. right. by apply elem_of_list_to_set.
      + destruct Htarget as [Hrec Hcl]; [lia | done |].
        split; [by apply Hm | intros j Hj; by apply Hu, Hcl]. }
  destruct Hinv as [_ Htarget]. apply Htarget; [| done].
  by apply lookup_lt_Some in Hw.
Qed.

Lemma sorted_cases {A} (R : A -> A -> Prop) l x y :
  StronglySorted R l -> x ∈ l -> y ∈ l -> x = y \/ R x y \/ R y x.
Proof.
  induction 1 as [| a l Hl IH Ha]; [by intros ?%elem_of_nil |].
  rewrite Forall_forall in Ha.
  intros [-> | Hx]%elem_of_cons [-> | Hy]%elem_of_cons; auto.
Qed.

(** A pass over a built index records at most one match per start. *)
Lemma one_match_per_start word_list phrase used0 k1 k2 :
  let out := match_from_index U phrase (_build_index U word_list) used0 in
  k1 ∈ fst out -> k2 ∈ fst out -> match_start k1 = match_start k2 -> k1 = k2.
Proof.
  intros out H1 H2 Hstart.
  destruct (match_from_index_inv U phrase (_build_index U word_list) used0)
    as (Hsound & _ & Hsorted & _). fold out in Hsound, Hsorted.
  pose proof (match_from_index_nonempty U phrase _ used0
                (build_index_nonempty U word_list)) as Hne. fold out in Hne.
  assert (Hend : forall k, k ∈ fst out -> Z.of_nat (match_start k) <= match_end k).
  { intros k Hk. rewrite Forall_forall in Hsound, Hne.
    destruct (Hsound k Hk) as (He & _ & Hj). specialize (Hne k Hk).
    destruct (length (split U (match_text k))) eqn:Hn; [| lia].
    rewrite take_0 in Hj. cbn in Hj. congruence. }
  destruct (sorted_cases _ _ k1 k2 Hsorted H1 H2) as [? | [Hlt | Hlt]]; [done | |].
  - pose proof (Hend k1 H1). lia.
  - pose proof (Hend k2 H2). lia.
Qed.
End LongestMatch.

(** C2 (as amended). Every bucket of a built index is stored in
    descending order of token count, then of character length, rows of
    equal count and length in their original order.  When a multi-token
    entry [E] of the bucket of a token lies in the phrase at a position
    of that token that is free (not in the used set given, not spanned by
    an earlier match of the pass), the pass records there the first entry
    of the bucket, in stored order, that lies in the phrase at that
    position: an entry with at least as many tokens as [E], with the text
    of [E] when it has as many, and [E]'s text whenever no entry with
    more tokens lies there.  It records no other match starting at that
    position and puts every position of the recorded span in the used
    set. *)
Theorem longest_match_first (U : UCD) (word_list : list ustring) (phrase : ustring)
    (used_positions : gset nat) (i : nat) (word : ustring)
    (bucket : list entry) (E : entry) :
  let index := _build_index U word_list in
  let words := split U phrase in
  let out := match_from_index U phrase index used_positions in
  words !! i = Some word ->
  index !! word = Some bucket ->
  i ∉ used_positions ->
  (forall k, k ∈ fst out -> (match_start k < i)%nat -> covers i k = false) ->
  E ∈ bucket ->
  (1 < length (split U (fst E)))%nat ->
  spans U words i (fst E) ->
  StronglySorted (stored_before U) bucket /\
  exists pre kw row post,
    bucket = pre ++ (kw, row) :: post /\
    Forall (fun c => ~ spans U words i (fst c)) pre /\
    spans U words i kw /\
    (length (split U (fst E)) <= length (split U kw))%nat /\
    (length (split U kw) = length (split U (fst E)) -> kw = fst E) /\
    ((forall c, c ∈ bucket ->
        (length (split U (fst E)) < length (split U (fst c)))%nat ->
        ~ spans U words i (fst c)) -> kw = fst E) /\
    (kw, i, Z.of_nat i + Z.of_nat (length (split U kw)) - 1) ∈ fst out /\
    (forall k, k ∈ fst out -> match_start k = i ->
       k = (kw, i, Z.of_nat i + Z.of_nat (length (split U kw)) - 1)) /\
    (forall j, (i <= j < i + length (split U kw))%nat -> j ∈ snd out).
Proof.
  intros index words out Hword Hbucket Hfree Hclear HE Hmulti Hspan.
  pose proof (build_index_sorted U _ _ _ Hbucket) as Hsorted.
  split; [by eapply bucket_order |].
  apply (fits_spans U words i word (fst E) Hword) in Hspan.
  destruct (try_candidates_first U words i word bucket)
    as (pre & [kw row] & post & -> & Hpre & Hfit & _).
  { apply Exists_exists. exists E. by split. }
  cbn [fst] in Hfit.
  exists pre, kw, row, post.
  assert (Hnotpre : E ∉ pre).
  { intros Hin. rewrite Forall_forall in Hpre. specialize (Hpre E Hin). congruence. }
  assert (Htail : E ∈ (kw, row) :: post) by (apply elem_of_app in HE as [? | ?]; done).
  assert (Hcount : (length (split U (fst E)) <= length (split U kw))%nat).
  { apply elem_of_cons in Htail as [-> | Hpost]; [done |].
    apply StronglySorted_app_1_r, StronglySorted_cons in Hsorted as [Hall _].
    rewrite Forall_forall in Hall. destruct (Hall E Hpost) as [Hk _].
    unfold key_le, sort_key in Hk. cbn [fst snd] in Hk.
    apply orb_true_iff in Hk as [Hlt%Nat.ltb_lt | [Heq%Nat.eqb_eq _]%andb_true_iff]; lia. }
  assert (Hsame : length (split U kw) = length (split U (fst E)) -> kw = fst E).
  { intros Hlen. by eapply fits_multi_text. }
  destruct (scan_records U index words used_positions i word pre kw row post
              Hword Hbucket Hpre Hfit Hfree Hclear) as [Hrec Hclaimed].
  change (match_of U i kw)
    with (kw, i, Z.of_nat i + Z.of_nat (length (split U kw)) - 1) in Hrec.
  split; [done |].
  split.
  { eapply Forall_impl; [exact Hpre |]. intros c Hc Hs.
    apply (fits_spans U words i word (fst c) Hword) in Hs. congruence. }
  split; [by apply (fits_spans U words i word kw Hword) |].
  split; [done |]. split; [done |].
  split.
  { intros Hlonger. apply Hsame.
    destruct (decide (length (split U kw) = length (split U (fst E)))) as [? | Hne]; [done |].
    exfalso. apply (Hlonger (kw, row)).
    - apply elem_of_app. right. apply list_elem_of_here.
    - cbn [fst]. lia.
    - by apply (fits_spans U words i word kw Hword). }
  split; [exact Hrec |].
  split.
  - intros k Hk Hstart.
    by apply (one_match_per_start U word_list phrase used_positions k _ Hk Hrec).
  - intros j Hj. apply Hclaimed. unfold claimed.
    destruct (Nat.eqb_spec (length (split U kw)) 1) as [H1 | _]; [lia |].
    apply elem_of_seq. lia.
Qed.

Lemma longest_match_first_witness :
  let word_list := [u "running"; u "running shoe"; u "shoe"] in
  let words := [u "trail"; u "running"; u "shoe"] in
  let out := match_from_index ucd_basic (u "trail running shoe")
               (_build_index ucd_basic word_list) ∅ in
  let E := (u "running shoe", 1%nat) in
  StronglySorted (stored_before ucd_basic) [(u "running shoe", 1%nat); (u "running", 0%nat)] /\
  exists pre kw row post,
    [(u "running shoe", 1%nat); (u "running", 0%nat)] = pre ++ (kw, row) :: post /\
    Forall (fun c => ~ spans ucd_basic words 1 (fst c)) pre /\
    spans ucd_basic words 1 kw /\
    (length (split ucd_basic (fst E)) <= length (split ucd_basic kw))%nat /\
    (length (split ucd_basic kw) = length (split ucd_basic (fst E)) -> kw = fst E) /\
    ((forall c, c ∈ [(u "running shoe", 1%nat); (u "running", 0%nat)] ->
        (length (split ucd_basic (fst E)) < length (split ucd_basic (fst c)))%nat ->
        ~ spans ucd_basic words 1 (fst c)) -> kw = fst E) /\
    (kw, 1%nat, Z.of_nat 1 + Z.of_nat (length (split ucd_basic kw)) - 1) ∈ fst out /\
    (forall k, k ∈ fst out -> match_start k = 1%nat ->
       k = (kw, 1%nat, Z.of_nat 1 + Z.of_nat (length (split ucd_basic kw)) - 1)) /\
    (forall j, (1 <= j < 1 + length (split ucd_basic kw))%nat -> j ∈ snd out).
Proof.
  intros word_list words out E.
  apply (longest_match_first ucd_basic word_list (u "trail running shoe") ∅ 1%nat
           (u "running") [(u "running shoe", 1%nat); (u "running", 0%nat)] E).
  - reflexivity.
  - vm_compute. reflexivity.
  - apply not_elem_of_empty.
  - intros k Hk Hstart. vm_compute in Hk.
    repeat (apply elem_of_cons in Hk as [-> | Hk]; [vm_compute in Hstart; lia |]).
    by apply elem_of_nil in Hk.
  - apply list_elem_of_here.
  - vm_compute. lia.
  - split; [vm_compute; lia | reflexivity].
Defined.

(** C2 fails as stated: with the entries "aa bb" and "aa bb cc", the
    two-token entry lies in the phrase "aa bb cc" at the free position 0,
    yet the pass records the three-token entry there and not "aa bb". *)
Lemma longer_entry_recorded :
  let index := _build_index ucd_basic [u "aa bb"; u "aa bb cc"] in
  let words := split ucd_basic (u "aa bb cc") in
  index !! u "aa" = Some [(u "aa bb cc", 1%nat); (u "aa bb", 0%nat)] /\
  words !! 0%nat = Some (u "aa") /\
  spans ucd_basic words 0 (u "aa bb") /\
  fst (match_from_index ucd_basic (u "aa bb cc") index ∅) = [(u "aa bb cc", 0%nat, 2)].
Proof.
  vm_compute. split; [reflexivity |]. split; [reflexivity |].
  split; [split; [lia | reflexivity] | reflexivity].
Qed.

(** ** Row labels and the progress report *)

Section Labels.
Context (U : UCD) (self : matcher).




End Labels.


(** A table of two rows whose labels are 4 and 8 reports 250 and 450; a
    text label at the second row makes the run fail after the first
    report. *)
Example implicit_index_progress :
  let df := [Some (u "red shoe"); Some (u "socks")] in
  succeeds (process_file ucd_basic shoe_matcher
              (fun i => IntLabel (4 * (Z.of_nat i + 1))) df true)
    (fun out => calls_of (log out) = [250; 450]) /\
  (exists events,
     process_file ucd_basic shoe_matcher
       (fun i => match i with O => IntLabel 4 | _ => OtherLabel end) df true
       = Failed ProgressError events /\ calls_of events = [250]) /\
  List.map task_progress [250; 450] = [180; 300].
Proof.
  split; [vm_compute; reflexivity |]. split; [| vm_compute; reflexivity].
  eexists. split; [vm_compute; reflexivity | vm_compute; reflexivity].
Qed.

(** On float labels the expression is evaluated as binary64 arithmetic
    does, an overflowing product included. *)
Example float_label_progress :
  progress_of (FloatLabel (Float.round53 (1 # 10))) 3 = Some 36 /\
  progress_of (FloatLabel (3 # 2)) 2 = Some 125 /\
  progress_of (FloatLabel (-29 # 4)) 3 = Some (-208) /\
  progress_of (FloatLabel (Float.round53 (inject_Z (2 ^ 52) + (1 # 2)))) 7
    = Some 64337137533864240 /\
  progress_of (FloatLabel (Float.round53 (17 * 10 ^ 307))) 1 = None /\
  is_Some (progress_of (FloatLabel (Float.round53 (10 ^ 306))) 1).
Proof. vm_compute. repeat split; try reflexivity. by eexists. Qed.

(** X25. A rank-limit option that is a string of more than 4300 digits
    makes the constructor raise [ValueError], whatever the reference
    table. *)
Theorem rank_limit_too_long (U : UCD) (table : frame) (options : options_t)
    (s : ustring) :
  opt_rank_limit options = Some s ->
  str_isdigit U s = true ->
  int_max_str_digits < Z.of_nat (length s) ->
  WebKeywordMatcher U table options = Raise ValueError.
Proof.
  intros Hs Hd Hlen. unfold WebKeywordMatcher.
  rewrite parse_rank_limit_cases, Hs. cbn [default from_option id].
  rewrite Hd. unfold py_int. by rewrite (proj2 (Z.ltb_lt _ _) Hlen).
Qed.

Lemma rank_limit_too_long_witness :
  WebKeywordMatcher ucd_basic shoe_table
    {| opt_rank_limit := Some (repeat 49 4301); opt_custom_stopwords := Some [] |}
    = Raise ValueError.
Proof.
  apply (rank_limit_too_long ucd_basic shoe_table _ (repeat 49 4301)).
  - reflexivity.
  - vm_compute. reflexivity.
  - vm_compute. reflexivity.
Defined.
